(** * clone-ami-to-region: a shallow embedding of the cloning engine

    The development follows the layout of the repository:

    - [Js]              the few JavaScript notions the code relies on
                        (truthiness, property lookup through the prototype
                        chain);
    - [Constants]       lib/constants.js;
    - [Ec2]             lib/ec2.js, the wrapper around the AWS client with
                        its bounded retry;
    - [ConfigValidator] lib/configValidator.js;
    - [ImageCloner]     lib/imageCloner.js (in this source tree it follows
                        the validator in the same file): the completion
                        poller, the per-region pipeline and the top-level
                        orchestration;
    - [Index]           index.js, the programmatic entry point.

    The combinators of the async library ([series], [each], [retry],
    [doUntil]) are modelled by what they do with the callbacks they are
    given; the validator library by the keywords [configSchema] uses.

    Remote calls are answered by an oracle ([Remote]); every call and every
    timer is appended to a trace, so that statements about "which calls
    were made" are statements about that trace. *)

From Stdlib Require Import ZArith String List Bool Lia.
From stdpp Require Import base gmap strings list fin_maps.
Import ListNotations.

Local Open Scope string_scope.
Local Open Scope Z_scope.
Local Open Scope list_scope.

(* ===================================================================== *)
(** ** JavaScript notions                                                 *)
(* ===================================================================== *)

Module Js.

(** Names every object literal inherits from [Object.prototype]. A
    bracket lookup [table[key]] on an object literal finds them when the
    literal has no own property of that name. *)
Definition Object_prototype_names : list string :=
  [ "constructor"; "hasOwnProperty"; "isPrototypeOf";
    "propertyIsEnumerable"; "toLocaleString"; "toString"; "valueOf";
    "__proto__"; "__defineGetter__"; "__defineSetter__";
    "__lookupGetter__"; "__lookupSetter__" ].

(** The result of [table[key]] for a table of string constants. *)
Inductive Value : Type :=
| VUndefined
| VString (s : string)
| VInherited (name : string).

Fixpoint own (table : list (string * string)) (key : string) : option string :=
  match table with
  | [] => None
  | (k, v) :: rest => if String.eqb k key then Some v else own rest key
  end.

Definition inherited (key : string) : bool :=
  existsb (String.eqb key) Object_prototype_names.

Definition get (table : list (string * string)) (key : string) : Value :=
  match own table key with
  | Some v => VString v
  | None => if inherited key then VInherited key else VUndefined
  end.

(** [if (v)]: undefined and the empty string are falsy; functions and
    objects are truthy. *)
Definition truthy (v : Value) : bool :=
  match v with
  | VUndefined => false
  | VString s => negb (String.eqb s "")
  | VInherited _ => true
  end.

(** Truthiness of a variable that holds a string or is undefined. *)
Definition truthy_string (v : option string) : bool :=
  match v with
  | None => false
  | Some s => negb (String.eqb s "")
  end.

(** [x * y] on numbers, [None] standing for NaN (an undefined operand). *)
Definition mul (x : option Z) (y : Z) : option Z :=
  match x with
  | Some n => Some (n * y)
  | None => None
  end.

End Js.

(* ===================================================================== *)
(** ** Data                                                               *)
(* ===================================================================== *)

Record Tag : Type := { Key : string; Value : string }.

Record LaunchPermission : Type :=
  { UserId : option string; Group : option string }.

Record Image : Type :=
  { ImageId : string;
    State : option string;
    Name : string;
    Description : string;
    Tags : list Tag }.

(** The value given to [modifyImageAttribute] for launch permissions:
    [{ Add: [...], Remove: [...] }], either part possibly absent. *)
Record LaunchPermissionModifications : Type :=
  { Add : option (list LaunchPermission);
    Remove : option (list LaunchPermission) }.

(** One schema violation reported by the validator: the property and the
    schema keyword it breaks. *)
Record Violation : Type :=
  { v_property : string; v_keyword : string }.

(** Errors, kept structured rather than as formatted messages:
    - [RemoteError m]          an error handed back by the AWS client;
    - [CallFailed op e]        [new Error(util.format('Call to <op> failed: %s', e))];
    - [NoImageFound id]        ['No image found for image ID <id>.'];
    - [UnsupportedAttribute f a]
                               ['Invalid or unsupported attribute for <f>: <a>'];
    - [InvalidConfig vs]       [new Error(JSON.stringify(errors))];
    - [NotAttempted]           [new Error('Cloning not attempted')];
    - [CallbackAlreadyCalled]  thrown by async when a task callback is
                               invoked a second time;
    - [TypeError m]            thrown by the runtime. *)
Inductive Error : Type :=
| RemoteError (msg : string)
| CallFailed (op : string) (cause : Error)
| NoImageFound (imageId : string)
| UnsupportedAttribute (fn : string) (attribute : string)
| InvalidConfig (violations : list Violation)
| NotAttempted
| CallbackAlreadyCalled
| TypeError (msg : string).

(** Node-style callback results: [callback(error)] or [callback(null, x)]. *)
Inductive Result (A : Type) : Type :=
| Err (e : Error)
| Ok (a : A).
Arguments Err {A} e.
Arguments Ok {A} a.

(* ===================================================================== *)
(** ** lib/constants.js                                                   *)
(* ===================================================================== *)

Module Constants.

Definition LAUNCH_PERMISSION : string := "launchPermission".

Definition describeImageAttributesProperty : list (string * string) :=
  [ ("launchPermission", "LaunchPermissions") ].

Definition modifyImageAttributesProperty : list (string * string) :=
  [ ("launchPermission", "LaunchPermission") ].

End Constants.

(* ===================================================================== *)
(** ** The remote service and the trace                                   *)
(* ===================================================================== *)

Record CopyImageParams : Type :=
  { cp_Name : string;
    cp_SourceImageId : string;
    cp_SourceRegion : string;
    cp_Description : string }.

(** [params] of [client.modifyImageAttribute]: [Attribute], [ImageId] and
    the entry [params[property] = value], whose key is whatever the table
    lookup produced. *)
Record ModifyImageAttributeParams : Type :=
  { mp_Attribute : string;
    mp_ImageId : string;
    mp_property : Js.Value;
    mp_value : LaunchPermissionModifications }.

(** The data of a [describeImageAttribute] answer. *)
Record ImageAttribute : Type :=
  { ia_ImageId : string;
    ia_LaunchPermissions : list LaunchPermission }.

(** What the program does to the outside world, in order. The first field
    of a remote call is the region of the client it was issued on. *)
Inductive Event : Type :=
| EvCopyImage (region : string) (params : CopyImageParams)
| EvDescribeImages (region : string) (imageIds : list string)
| EvDescribeImageAttribute (region : string) (attribute imageId : string)
| EvModifyImageAttribute (region : string) (params : ModifyImageAttributeParams)
| EvCreateTags (region : string) (resources : list string) (tags : list Tag)
| EvRetryWait (ms : Z)
| EvSetTimeout (ms : option Z).

Definition is_copyImage (e : Event) : bool :=
  match e with EvCopyImage _ _ => true | _ => false end.
Definition is_describeImages (e : Event) : bool :=
  match e with EvDescribeImages _ _ => true | _ => false end.
Definition is_describeImageAttribute (e : Event) : bool :=
  match e with EvDescribeImageAttribute _ _ _ => true | _ => false end.
Definition is_modifyImageAttribute (e : Event) : bool :=
  match e with EvModifyImageAttribute _ _ => true | _ => false end.
Definition is_createTags (e : Event) : bool :=
  match e with EvCreateTags _ _ _ => true | _ => false end.

(** The remote service as an oracle: the answer to the n-th call of each
    operation. *)
Record Remote : Type :=
  { on_copyImage : nat -> Result string;
    on_describeImages : nat -> Result (list Image);
    on_describeImageAttribute : nat -> Result ImageAttribute;
    on_modifyImageAttribute : nat -> Result unit;
    on_createTags : nat -> Result unit }.

(** Computations that extend the trace. *)
Definition M (A : Type) : Type := list Event -> A * list Event.

Definition ret {A} (a : A) : M A := fun t => (a, t).
Definition bind {A B} (m : M A) (k : A -> M B) : M B :=
  fun t => let (a, t') := m t in k a t'.
Definition emit (e : Event) : M unit := fun t => (tt, t ++ [e]).
Definition calls_so_far (p : Event -> bool) : M nat :=
  fun t => (length (List.filter p t), t).

Declare Scope m_scope.
Delimit Scope m_scope with m.
Notation "x <~ c ;; k" := (bind c (fun x => k))
  (at level 100, c at next level, right associativity) : m_scope.
Notation "c ;;; k" := (bind c (fun _ => k))
  (at level 100, right associativity) : m_scope.
Local Open Scope m_scope.

(* ===================================================================== *)
(** ** lib/ec2.js                                                         *)
(* ===================================================================== *)

Module Ec2.

Record RetryConfig : Type := { times : nat; interval : Z }.

Definition retryConfig : RetryConfig := {| times := 3; interval := 100 |}.

(** [async.retry(opts, task, callback)]: run [task]; on an error, and
    while attempts remain, wait [interval] and run it again; hand the
    first success, or the error of the last attempt, to [callback]. *)
Fixpoint retry_from {A} (more : nat) (wait : Z) (task : M (Result A)) : M (Result A) :=
  r <~ task ;;
  match r, more with
  | Err _, S more' => emit (EvRetryWait wait) ;;; retry_from more' wait task
  | _, _ => ret r
  end.

Definition retry {A} (cfg : RetryConfig) (task : M (Result A)) : M (Result A) :=
  retry_from (Nat.pred (times cfg)) (interval cfg) task.

Section Client.

Variable R : Remote.

(** The raw client calls: log the call, take the oracle's answer. *)
Definition client_copyImage (region : string) (params : CopyImageParams) : M (Result string) :=
  n <~ calls_so_far is_copyImage ;;
  emit (EvCopyImage region params) ;;;
  ret (on_copyImage R n).

Definition client_describeImages (region : string) (imageIds : list string) : M (Result (list Image)) :=
  n <~ calls_so_far is_describeImages ;;
  emit (EvDescribeImages region imageIds) ;;;
  ret (on_describeImages R n).

Definition client_describeImageAttribute (region attribute imageId : string) : M (Result ImageAttribute) :=
  n <~ calls_so_far is_describeImageAttribute ;;
  emit (EvDescribeImageAttribute region attribute imageId) ;;;
  ret (on_describeImageAttribute R n).

Definition client_modifyImageAttribute (region : string) (params : ModifyImageAttributeParams) : M (Result unit) :=
  n <~ calls_so_far is_modifyImageAttribute ;;
  emit (EvModifyImageAttribute region params) ;;;
  ret (on_modifyImageAttribute R n).

Definition client_createTags (region : string) (resources : list string) (tags : list Tag) : M (Result unit) :=
  n <~ calls_so_far is_createTags ;;
  emit (EvCreateTags region resources tags) ;;;
  ret (on_createTags R n).

(** [Ec2.prototype.copyImage] *)
Definition copyImage (imageId name description sourceRegion destinationRegion : string) : M (Result string) :=
  let params :=
    {| cp_Name := name;
       cp_SourceImageId := imageId;
       cp_SourceRegion := sourceRegion;
       cp_Description := description |} in
  retry retryConfig
    (r <~ client_copyImage destinationRegion params ;;
     match r with
     | Err error => ret (Err (CallFailed "copyImage" error))
     | Ok newImageId => ret (Ok newImageId)
     end).

(** [Ec2.prototype.describeImage] *)
Definition describeImage (imageId region : string) : M (Result Image) :=
  r <~ retry retryConfig (client_describeImages region [imageId]) ;;
  match r with
  | Err error => ret (Err (CallFailed "describeImages" error))
  | Ok [] => ret (Err (NoImageFound imageId))
  | Ok (image :: _) => ret (Ok image)
  end.

(** [data[property]] on a [describeImageAttribute] answer. *)
Definition attribute_data (data : ImageAttribute) (property : Js.Value) : option (list LaunchPermission) :=
  match property with
  | Js.VString "LaunchPermissions" => Some (ia_LaunchPermissions data)
  | _ => None
  end.

(** [Ec2.prototype.describeImageAttribute] *)
Definition describeImageAttribute (imageId region attribute : string) : M (Result (option (list LaunchPermission))) :=
  r <~ retry retryConfig (client_describeImageAttribute region attribute imageId) ;;
  match r with
  | Err error => ret (Err (CallFailed "describeImageAttribute" error))
  | Ok data =>
      let property := Js.get Constants.describeImageAttributesProperty attribute in
      if negb (Js.truthy property)
      then ret (Err (UnsupportedAttribute "describeImageAttribute" attribute))
      else ret (Ok (attribute_data data property))
  end.

(** [Ec2.prototype.modifyImageAttribute] *)
Definition modifyImageAttribute (imageId region attribute : string)
    (value : LaunchPermissionModifications) : M (Result unit) :=
  let property := Js.get Constants.modifyImageAttributesProperty attribute in
  if negb (Js.truthy property)
  then ret (Err (UnsupportedAttribute "modifyImageAttribute" attribute))
  else
    let params :=
      {| mp_Attribute := attribute;
         mp_ImageId := imageId;
         mp_property := property;
         mp_value := value |} in
    r <~ retry retryConfig (client_modifyImageAttribute region params) ;;
    match r with
    | Err error => ret (Err (CallFailed "modifyImageAttribute" error))
    | Ok _ => ret (Ok tt)
    end.

(** [Ec2.prototype.tagImage] *)
Definition tagImage (imageId region : string) (tags : list Tag) : M (Result unit) :=
  retry retryConfig
    (r <~ client_createTags region [imageId] tags ;;
     match r with
     | Err error => ret (Err (CallFailed "createTags" error))
     | Ok _ => ret (Ok tt)
     end).

End Client.

End Ec2.

(* ===================================================================== *)
(** ** Configuration objects                                              *)
(* ===================================================================== *)

(** The configuration object. [progressCheckIntervalInSeconds] and
    [clientOptions] may be absent (undefined). *)
Record Config : Type :=
  { sourceImageId : string;
    sourceRegion : string;
    destinationRegions : list string;
    progressCheckIntervalInSeconds : option Z;
    clientOptions : option (list (string * string)) }.

(** Objects live in a heap and are passed by reference: the caller of
    [cloneImage] and the [ImageCloner] hold the same location. *)
Abbreviation loc := nat (only parsing).
Abbreviation Heap := (gmap nat Config) (only parsing).

(* ===================================================================== *)
(** ** lib/configValidator.js                                             *)
(* ===================================================================== *)

Module ConfigValidator.

Definition violation (property keyword : string) : Violation :=
  {| v_property := property; v_keyword := keyword |}.

(** [type: 'string', minLength: 1] *)
Definition check_minLength (property : string) (s : string) : list Violation :=
  if (String.length s <? 1)%nat then [violation property "minLength"] else [].

(** [type: 'array', items: { type: 'string', minLength: 1 }, minItems: 1] *)
Definition check_destinationRegions (regions : list string) : list Violation :=
  flat_map (check_minLength "destinationRegions[]") regions
  ++ (if (length regions <? 1)%nat then [violation "destinationRegions" "minItems"] else []).

(** [type: 'number', minimum: 0, required: true] *)
Definition check_progressCheckInterval (n : option Z) : list Violation :=
  match n with
  | None => [violation "progressCheckIntervalInSeconds" "required"]
  | Some n => if n <? 0 then [violation "progressCheckIntervalInSeconds" "minimum"] else []
  end.

(** [ConfigValidator.prototype.validate]: the violations of
    [configSchema], none when the configuration is valid. A [Config] has
    the properties of the schema and no other, each of the type the
    schema names: on such an object [additionalProperties] and the [type]
    keywords cannot fail, and the keywords that can are checked here,
    [minLength], [minItems], [minimum] and [required]. *)
Definition validate (config : Config) : list Violation :=
  check_minLength "sourceImageId" (sourceImageId config)
  ++ check_minLength "sourceRegion" (sourceRegion config)
  ++ check_destinationRegions (destinationRegions config)
  ++ check_progressCheckInterval (progressCheckIntervalInSeconds config).

End ConfigValidator.

(* ===================================================================== *)
(** ** lib/imageCloner.js                                                 *)
(* ===================================================================== *)

(** One entry of the report. *)
Record RegionOutcome : Type :=
  { error : option Error;
    imageId : option string;
    success : bool }.

(** What an observer of one [cloneImage] run sees of the orchestration. *)
Inductive Notice : Type :=
| WorkerStarted (i : nat) (region : string)
| WorkerFinished (i : nat) (r : Result string)
| CallbackInvoked (err : option Error) (report : gmap string RegionOutcome)
| Thrown (e : Error).

(** The environment of a run: the remote service as seen by the source
    lookups and by each region worker (numbered by position in
    [destinationRegions]), and how many ticks a poller is observed for.

    The workers run concurrently. They share nothing but the variables of
    the fan-out step ([results], [firstCloneImageError]), which only their
    final callbacks touch, so a run is determined by what the service
    answers to each worker and by the order in which the workers report.
    That order is the [schedule] given to [cloneImage]: a list of worker
    numbers. An entry that names no worker, a worker whose pipeline has
    not come to an end, or a worker that has reported already, stands for
    no event; a schedule that stops early describes a run observed up to
    that moment. Every answer of the real client arrives asynchronously,
    so all workers are started before the first one reports. *)
Record Env : Type :=
  { source_remote : Remote;
    worker_remote : nat -> Remote;
    poll_fuel : nat }.

Module ImageCloner.

Record t : Type := { config : loc }.

(** [_.defaults(config, { progressCheckIntervalInSeconds: 30 })] on the
    object itself. *)
Definition defaults (c : Config) : Config :=
  match progressCheckIntervalInSeconds c with
  | Some _ => c
  | None =>
      {| sourceImageId := sourceImageId c;
         sourceRegion := sourceRegion c;
         destinationRegions := destinationRegions c;
         progressCheckIntervalInSeconds := Some 30;
         clientOptions := clientOptions c |}
  end.

(** [ImageCloner.prototype.fillConfigurationDefaults]: [_.defaults]
    assigns into its first argument and returns that same object. *)
Definition fillConfigurationDefaults (h : Heap) (config : loc) : Heap * loc :=
  (alter defaults config h, config).

(** [function ImageCloner (config)] *)
Definition new (h : Heap) (config : loc) : Heap * t :=
  let (h', c) := fillConfigurationDefaults h config in
  (h', {| config := c |}).

Definition is_pending (imageState : option string) : bool :=
  match imageState with
  | Some s => String.eqb s "pending"
  | None => false
  end.

(** The test function of the poll loop:
    [imageState && imageState !== 'pending']. *)
Definition copy_completed (imageState : option string) : bool :=
  Js.truthy_string imageState && negb (is_pending imageState).

Section Worker.

Variable R : Remote.
Variable cfg : Config.

(** [ImageCloner.prototype.awaitImageCopyCompletion]:
    [async.doUntil(fn, test, callback)] runs [fn], hands an error of
    [fn] to [callback] at once, and otherwise repeats until [test()]
    holds. [None] is a poll still running after [ticks] ticks. *)
Fixpoint awaitImageCopyCompletion (ticks : nat) (imageId region : string)
    : M (option (Result unit)) :=
  match ticks with
  | O => ret None
  | S ticks' =>
      emit (EvSetTimeout (Js.mul (progressCheckIntervalInSeconds cfg) 1000)) ;;;
      r <~ Ec2.describeImage R imageId region ;;
      match r with
      | Err error => ret (Some (Err error))
      | Ok image =>
          if copy_completed (State image)
          then ret (Some (Ok tt))
          else awaitImageCopyCompletion ticks' imageId region
      end
  end.

(** [ImageCloner.prototype.cloneImageToRegion]: [async.series] runs
    its tasks in order and stops at the first one that yields an
    error. *)
Definition cloneImageToRegion (ticks : nat) (image : Image)
    (launchPermissions : option (list LaunchPermission))
    (sourceRegion destinationRegion : string) : M (option (Result string)) :=
  (* copyImage *)
  r <~ Ec2.copyImage R (ImageId image) (Name image) (Description image)
         sourceRegion destinationRegion ;;
  match r with
  | Err error => ret (Some (Err error))
  | Ok clonedImageId =>
      (* awaitCompletion *)
      r <~ awaitImageCopyCompletion ticks clonedImageId destinationRegion ;;
      match r with
      | None => ret None
      | Some (Err error) => ret (Some (Err error))
      | Some (Ok _) =>
          (* tagImage *)
          r <~ Ec2.tagImage R clonedImageId destinationRegion (Tags image) ;;
          match r with
          | Err error => ret (Some (Err error))
          | Ok _ =>
              (* setLaunchPermissions *)
              r <~ Ec2.modifyImageAttribute R clonedImageId destinationRegion
                     Constants.LAUNCH_PERMISSION
                     {| Add := launchPermissions; Remove := None |} ;;
              match r with
              | Err error => ret (Some (Err error))
              | Ok _ => ret (Some (Ok clonedImageId))
              end
          end
      end
  end.

End Worker.

(** The placeholder every region starts with. *)
Definition not_attempted : RegionOutcome :=
  {| error := Some NotAttempted; imageId := None; success := false |}.

(** [_.keyBy(regions, function (region) { return region; })] *)
Definition keyBy (regions : list string) : gmap string string :=
  foldl (fun m region => <[region := region]> m) ∅ regions.

(** [_.chain(destinationRegions).keyBy(...).mapValues(...).value()] *)
Definition initial_results (regions : list string) : gmap string RegionOutcome :=
  (fun _ => not_attempted) <$> keyBy regions.

(** The variables shared by the callbacks of the fan-out step, and the
    bookkeeping of the two async combinators involved:
    [each_outstanding] counts the iteratees of [async.each] that have not
    called [innerAsyncCallback]; [series_called] tells whether the
    callback of the [cloneImageToRegions] task was invoked. *)
Record Fanout : Type :=
  { results : gmap string RegionOutcome;
    firstCloneImageError : option Error;
    each_outstanding : nat;
    series_called : bool;
    finished : list nat;
    log : list Notice }.

Definition note (n : Notice) (s : Fanout) : Fanout :=
  {| results := results s;
     firstCloneImageError := firstCloneImageError s;
     each_outstanding := each_outstanding s;
     series_called := series_called s;
     finished := finished s;
     log := log s ++ [n] |}.

(** [asyncCallback(err)] of the last task of the outer [async.series]:
    the first invocation ends the series and runs
    [function (error) { callback(error, results); }]; async guards task
    callbacks, a second invocation throws. *)
Definition asyncCallback (err : option Error) (s : Fanout) : Fanout :=
  if series_called s
  then note (Thrown CallbackAlreadyCalled) s
  else
    {| results := results s;
       firstCloneImageError := firstCloneImageError s;
       each_outstanding := each_outstanding s;
       series_called := true;
       finished := finished s;
       log := log s ++ [CallbackInvoked err (results s)] |}.

(** [innerAsyncCallback()] of one [async.each] iteratee: when the last
    outstanding iteratee reports, the final callback
    [function () { asyncCallback(firstCloneImageError); }] runs. *)
Definition innerAsyncCallback (s : Fanout) : Fanout :=
  let s' :=
    {| results := results s;
       firstCloneImageError := firstCloneImageError s;
       each_outstanding := Nat.pred (each_outstanding s);
       series_called := series_called s;
       finished := finished s;
       log := log s |} in
  if Nat.eqb (each_outstanding s') 0
  then asyncCallback (firstCloneImageError s') s'
  else s'.

(** [results[destinationRegion].error = error] *)
Definition set_error (region : string) (e : Error) (s : Fanout) : Fanout :=
  match results s !! region with
  | None => note (Thrown (TypeError "Cannot set property 'error' of undefined")) s
  | Some o =>
      {| results :=
           <[region := {| error := Some e; imageId := imageId o; success := success o |}]>
             (results s);
         firstCloneImageError := firstCloneImageError s;
         each_outstanding := each_outstanding s;
         series_called := series_called s;
         finished := finished s;
         log := log s |}
  end.

(** [results[destinationRegion] = { success: true, imageId: clonedImageId }] *)
Definition set_success (region : string) (clonedImageId : string) (s : Fanout) : Fanout :=
  {| results :=
       <[region := {| error := None; imageId := Some clonedImageId; success := true |}]>
         (results s);
     firstCloneImageError := firstCloneImageError s;
     each_outstanding := each_outstanding s;
     series_called := series_called s;
     finished := finished s;
     log := log s |}.

(** [firstCloneImageError = firstCloneImageError || error] *)
Definition remember_first (e : Error) (s : Fanout) : Fanout :=
  {| results := results s;
     firstCloneImageError :=
       match firstCloneImageError s with Some first => Some first | None => Some e end;
     each_outstanding := each_outstanding s;
     series_called := series_called s;
     finished := finished s;
     log := log s |}.

(** The callback [function (error, clonedImageId)] handed to
    [cloneImageToRegion] for [destinationRegion]. *)
Definition worker_callback (destinationRegion : string) (r : Result string)
    (s : Fanout) : Fanout :=
  match r with
  | Err e =>
      let s1 := remember_first e s in
      match results s1 !! destinationRegion with
      | None => set_error destinationRegion e s1
      | Some _ => innerAsyncCallback (set_error destinationRegion e s1)
      end
  | Ok clonedImageId =>
      asyncCallback None (set_success destinationRegion clonedImageId s)
  end.

(** Worker [i] reports: its callback runs, once, and only if its
    pipeline comes to an end. *)
Definition deliver (regions : list string)
    (outcomes : list (option (Result string))) (s : Fanout) (i : nat) : Fanout :=
  if existsb (Nat.eqb i) (finished s) then s
  else
    match regions !! i, outcomes !! i with
    | Some region, Some (Some r) =>
        worker_callback region r
          {| results := results s;
             firstCloneImageError := firstCloneImageError s;
             each_outstanding := each_outstanding s;
             series_called := series_called s;
             finished := finished s ++ [i];
             log := log s ++ [WorkerFinished i r] |}
    | _, _ => s
    end.

(** The result of observing one run. *)
Record Run : Type :=
  { report : gmap string RegionOutcome;
    notices : list Notice;
    source_trace : list Event;
    worker_runs : list (option (Result string) * list Event) }.

Definition stopped (err : Error) (results : gmap string RegionOutcome)
    (trace : list Event) : Run :=
  {| report := results;
     notices := [CallbackInvoked (Some err) results];
     source_trace := trace;
     worker_runs := [] |}.

(** The [cloneImageToRegions] task: [async.each] starts one worker per
    entry of [destinationRegions], in order; the workers then report in
    the order given by [schedule]. With no entry at all the final
    callback of [async.each] runs at once. *)
Definition cloneImageToRegions (env : Env) (cfg : Config)
    (results0 : gmap string RegionOutcome) (sourceImage : Image)
    (sourceImageLaunchPermissions : option (list LaunchPermission))
    (schedule : list nat) : Fanout * list (option (Result string) * list Event) :=
  let regions := destinationRegions cfg in
  let runs :=
    imap (fun i region =>
            cloneImageToRegion (worker_remote env i) cfg (poll_fuel env)
              sourceImage sourceImageLaunchPermissions
              (sourceRegion cfg) region [])
         regions in
  let s0 :=
    {| results := results0;
       firstCloneImageError := None;
       each_outstanding := length regions;
       series_called := false;
       finished := [];
       log := imap WorkerStarted regions |} in
  let s1 := if Nat.eqb (length regions) 0 then asyncCallback None s0 else s0 in
  (foldl (deliver regions (fst <$> runs)) s1 schedule, runs).

(** [ImageCloner.prototype.cloneImage], on the configuration object the
    cloner holds. *)
Definition cloneImage_with (env : Env) (cfg : Config) (schedule : list nat) : Run :=
  let results0 := initial_results (destinationRegions cfg) in
  (* validateConfig *)
  match ConfigValidator.validate cfg with
  | (_ :: _) as errors => stopped (InvalidConfig errors) results0 []
  | [] =>
      (* getImage *)
      let (r, t1) :=
        Ec2.describeImage (source_remote env) (sourceImageId cfg) (sourceRegion cfg) [] in
      match r with
      | Err error => stopped error results0 t1
      | Ok sourceImage =>
          (* getImageLaunchPermissions *)
          let (r, t2) :=
            Ec2.describeImageAttribute (source_remote env) (sourceImageId cfg)
              (sourceRegion cfg) Constants.LAUNCH_PERMISSION t1 in
          match r with
          | Err error => stopped error results0 t2
          | Ok sourceImageLaunchPermissions =>
              let (s, runs) :=
                cloneImageToRegions env cfg results0 sourceImage
                  sourceImageLaunchPermissions schedule in
              {| report := results s;
                 notices := log s;
                 source_trace := t2;
                 worker_runs := runs |}
          end
      end
  end.

(** The method on the object: the configuration is read through the
    reference; the heap is handed back as the run leaves it. *)
Definition cloneImage (h : Heap) (self : t) (env : Env) (schedule : list nat)
    : option (Heap * Run) :=
  match h !! config self with
  | Some cfg => Some (h, cloneImage_with env cfg schedule)
  | None => None
  end.

End ImageCloner.

(* ===================================================================== *)
(** ** index.js                                                           *)
(* ===================================================================== *)

Module Index.

(** [exports.cloneImage = function (config, callback)] *)
Definition cloneImage (h : Heap) (config : loc) (env : Env) (schedule : list nat)
    : option (Heap * ImageCloner.Run) :=
  let (h', imageCloner) := ImageCloner.new h config in
  ImageCloner.cloneImage h' imageCloner env schedule.

End Index.

(* ===================================================================== *)
(** ** Vocabulary of the specification                                    *)
(* ===================================================================== *)

Module Spec.

(** [appends m P Q]: from any trace, [m] adds at least one event, all of
    them satisfying [P], and yields a value satisfying [Q]. *)
Definition appends {A} (m : M A) (P : Event -> Prop) (Q : A -> Prop) : Prop :=
  forall t, exists a new,
    m t = (a, t ++ new) /\ new <> [] /\ Forall P new /\ Q a.

Definition retry_wait : Event := EvRetryWait (Ec2.interval Ec2.retryConfig).

Section Pipeline.

Variable R : Remote.
Variable cfg : Config.
Variable image : Image.
Variable launchPermissions : option (list LaunchPermission).
Variable sourceRegion destinationRegion : string.

(** The events each of the four steps may produce. *)
Definition copy_phase (e : Event) : Prop :=
  e = EvCopyImage destinationRegion
        {| cp_Name := Name image;
           cp_SourceImageId := ImageId image;
           cp_SourceRegion := sourceRegion;
           cp_Description := Description image |}
  \/ e = retry_wait.

Definition poll_timeout : Event :=
  EvSetTimeout (Js.mul (progressCheckIntervalInSeconds cfg) 1000).

Definition describe_phase (imageId region : string) (e : Event) : Prop :=
  e = EvDescribeImages region [imageId] \/ e = retry_wait.

Definition await_phase (clonedImageId : string) (e : Event) : Prop :=
  e = poll_timeout \/ describe_phase clonedImageId destinationRegion e.

Definition tag_phase (clonedImageId : string) (e : Event) : Prop :=
  e = EvCreateTags destinationRegion [clonedImageId] (Tags image)
  \/ e = retry_wait.

(** The permission step only ever adds: [Remove] is absent. *)
Definition permission_phase (clonedImageId : string) (e : Event) : Prop :=
  e = EvModifyImageAttribute destinationRegion
        {| mp_Attribute := "launchPermission";
           mp_ImageId := clonedImageId;
           mp_property := Js.VString "LaunchPermission";
           mp_value := {| Add := launchPermissions; Remove := None |} |}
  \/ e = retry_wait.

(** The error each step hands on when the remote service refuses. *)
Definition copy_failure (e : Error) : Prop :=
  exists n cause, on_copyImage R n = Err cause /\ e = CallFailed "copyImage" cause.

Definition copied (clonedImageId : string) : Prop :=
  exists n, on_copyImage R n = Ok clonedImageId.

Definition describe_failure (imageId : string) (e : Error) : Prop :=
  (exists n cause, on_describeImages R n = Err cause
                   /\ e = CallFailed "describeImages" cause)
  \/ e = NoImageFound imageId.

Definition tag_failure (e : Error) : Prop :=
  exists n cause, on_createTags R n = Err cause /\ e = CallFailed "createTags" cause.

Definition permission_failure (e : Error) : Prop :=
  exists n cause, on_modifyImageAttribute R n = Err cause
                  /\ e = CallFailed "modifyImageAttribute" cause.

Definition timeouts (t : list Event) : nat :=
  length (List.filter (fun e => match e with EvSetTimeout _ => true | _ => false end) t).

End Pipeline.

(** The invocations of the top-level callback, in order. *)
Definition callbacks (l : list Notice)
    : list (option Error * gmap string RegionOutcome) :=
  flat_map (fun n => match n with
                     | CallbackInvoked err rep => [(err, rep)]
                     | _ => []
                     end) l.

(** The entry a worker's result should leave in the report. *)
Definition outcome_of (r : Result string) : RegionOutcome :=
  match r with
  | Ok clonedImageId =>
      {| error := None; imageId := Some clonedImageId; success := true |}
  | Err e =>
      {| error := Some e; imageId := None; success := false |}
  end.

(** Exactly one of [imageId] and [error] is populated, in agreement with
    [success]. *)
Definition well_formed (o : RegionOutcome) : Prop :=
  (success o = true /\ imageId o <> None /\ error o = None)
  \/ (success o = false /\ imageId o = None /\ error o <> None).

Definition worker_failures (runs : list (option (Result string) * list Event))
    : list (nat * Error) :=
  flat_map (fun '(i, run) => match fst run with
                             | Some (Err e) => [(i, e)]
                             | _ => []
                             end) (imap pair runs).

End Spec.

(** ** Invariants of the fan-out step *)

Module Invariant.

Section Report.

Variable regions : list string.
Variable outcomes : list (option (Result string)).

(** Worker [i], for [region], has reported [r]. *)
Definition ran (done : list nat) (i : nat) (region : string) (r : Result string) : Prop :=
  i ∈ done /\ regions !! i = Some region /\ outcomes !! i = Some (Some r).

(** What holds of the shared variables whenever control is back in
    the event loop. *)
Record consistent (s : ImageCloner.Fanout) : Prop :=
  { keys_fixed :
      dom (ImageCloner.results s) = list_to_set regions;
    finished_ran :
      forall i, i ∈ ImageCloner.finished s ->
        exists region r, regions !! i = Some region /\ outcomes !! i = Some (Some r);
    log_finished :
      forall i r, WorkerFinished i r ∈ ImageCloner.log s ->
        i ∈ ImageCloner.finished s /\ outcomes !! i = Some (Some r);
    finished_logged :
      forall i, i ∈ ImageCloner.finished s ->
        exists r, WorkerFinished i r ∈ ImageCloner.log s;
    log_callback :
      forall err rep, CallbackInvoked err rep ∈ ImageCloner.log s ->
        dom rep = list_to_set regions;
    entry_error :
      forall region o, ImageCloner.results s !! region = Some o ->
        (error o = Some NotAttempted
         /\ forall i, i ∈ ImageCloner.finished s -> regions !! i <> Some region)
        \/ (exists i r, ran (ImageCloner.finished s) i region r
                        /\ error o = error (Spec.outcome_of r));
    entry_image :
      forall region o, ImageCloner.results s !! region = Some o ->
        (imageId o = None /\ success o = false
         /\ forall i id, ~ ran (ImageCloner.finished s) i region (Ok id))
        \/ (exists i id, ran (ImageCloner.finished s) i region (Ok id)
                         /\ imageId o = Some id /\ success o = true) }.

(** [s'] differs from [s] by callbacks only: the report and the set of
    finished workers are those of [s]; the log has grown by
    invocations of the top-level callback on that report, or by
    exceptions. *)
Definition callbacks_only (s s' : ImageCloner.Fanout) : Prop :=
  ImageCloner.results s' = ImageCloner.results s
  /\ ImageCloner.finished s' = ImageCloner.finished s
  /\ (forall n, n ∈ ImageCloner.log s -> n ∈ ImageCloner.log s')
  /\ forall n, n ∈ ImageCloner.log s' ->
       n ∈ ImageCloner.log s
       \/ (exists err, n = CallbackInvoked err (ImageCloner.results s))
       \/ (exists e, n = Thrown e).

(** A worker's write into the report, before it calls back. *)
Definition written (region : string) (r : Result string)
    (s : ImageCloner.Fanout) : ImageCloner.Fanout :=
  match r with
  | Err e => ImageCloner.set_error region e (ImageCloner.remember_first e s)
  | Ok clonedImageId => ImageCloner.set_success region clonedImageId s
  end.

(** The state in which the callback of worker [i] starts. *)
Definition reporting (i : nat) (r : Result string)
    (s : ImageCloner.Fanout) : ImageCloner.Fanout :=
  {| ImageCloner.results := ImageCloner.results s;
     ImageCloner.firstCloneImageError := ImageCloner.firstCloneImageError s;
     ImageCloner.each_outstanding := ImageCloner.each_outstanding s;
     ImageCloner.series_called := ImageCloner.series_called s;
     ImageCloner.finished := ImageCloner.finished s ++ [i];
     ImageCloner.log := ImageCloner.log s ++ [WorkerFinished i r] |}.

(** The bookkeeping while every worker so far has failed: no callback
    yet, [pending] iteratees outstanding, and the first error that
    was reported, if any. *)
Record all_failed (pending : nat) (first : option Error) (s : ImageCloner.Fanout) : Prop :=
  { af_outstanding : ImageCloner.each_outstanding s = pending;
    af_series : ImageCloner.series_called s = false;
    af_first : ImageCloner.firstCloneImageError s = first;
    af_quiet : Spec.callbacks (ImageCloner.log s) = [] }.

End Report.

End Invariant.

(* ===================================================================== *)
(** ** Concrete inputs                                                    *)
(* ===================================================================== *)

Module Examples.

Definition image (id : string) (state : option string) : Image :=
  {| ImageId := id;
     State := state;
     Name := "name";
     Description := "description";
     Tags := [ {| Key := "key"; Value := "value" |} ] |}.

Definition grants : ImageAttribute :=
  {| ia_ImageId := "ami-1";
     ia_LaunchPermissions := [ {| UserId := Some "111222333444"; Group := None |} ] |}.

(** A service where everything succeeds; a copy is seen pending once. *)
Definition healthy (newImageId : string) : Remote :=
  {| on_copyImage := fun _ => Ok newImageId;
     on_describeImages := fun n =>
       match n with
       | O => Ok [image newImageId (Some "pending")]
       | _ => Ok [image newImageId (Some "available")]
       end;
     on_describeImageAttribute := fun _ => Ok grants;
     on_modifyImageAttribute := fun _ => Ok tt;
     on_createTags := fun _ => Ok tt |}.

(** A service that refuses every copy. *)
Definition refusing_copy (why : string) : Remote :=
  {| on_copyImage := fun _ => Err (RemoteError why);
     on_describeImages := on_describeImages (healthy "unused");
     on_describeImageAttribute := fun _ => Ok grants;
     on_modifyImageAttribute := fun _ => Ok tt;
     on_createTags := fun _ => Ok tt |}.

(** A service that reports an empty state first, then "available". *)
Definition blank_then_available : Remote :=
  {| on_copyImage := fun _ => Ok "ami-2";
     on_describeImages := fun n =>
       match n with
       | O => Ok [image "ami-2" (Some "")]
       | _ => Ok [image "ami-2" (Some "available")]
       end;
     on_describeImageAttribute := fun _ => Ok grants;
     on_modifyImageAttribute := fun _ => Ok tt;
     on_createTags := fun _ => Ok tt |}.

Definition config_for (regions : list string) : Config :=
  {| sourceImageId := "ami-1";
     sourceRegion := "us-east-1";
     destinationRegions := regions;
     progressCheckIntervalInSeconds := Some 30;
     clientOptions := None |}.

Definition one_region : Config := config_for ["eu-west-1"].
Definition two_regions : Config := config_for ["eu-west-1"; "us-west-2"].
Definition same_region_twice : Config := config_for ["eu-west-1"; "eu-west-1"].

Definition without_source_image : Config :=
  {| sourceImageId := "";
     sourceRegion := "us-east-1";
     destinationRegions := ["eu-west-1"; "us-west-2"];
     progressCheckIntervalInSeconds := Some 30;
     clientOptions := None |}.

Definition without_interval : Config :=
  {| sourceImageId := "ami-1";
     sourceRegion := "us-east-1";
     destinationRegions := ["eu-west-1"];
     progressCheckIntervalInSeconds := None;
     clientOptions := None |}.

(** Worker 0 fails at the copy step, every other worker succeeds. *)
Definition first_fails : Env :=
  {| source_remote := healthy "ami-1";
     worker_remote := fun i =>
       match i with
       | O => refusing_copy "quota"
       | _ => healthy "ami-2"
       end;
     poll_fuel := 10 |}.

(** Worker 0 succeeds, every other worker fails at the copy step. *)
Definition first_succeeds : Env :=
  {| source_remote := healthy "ami-1";
     worker_remote := fun i =>
       match i with
       | O => healthy "ami-2"
       | _ => refusing_copy "quota"
       end;
     poll_fuel := 10 |}.

Definition all_succeed : Env :=
  {| source_remote := healthy "ami-1";
     worker_remote := fun i =>
       match i with
       | O => healthy "ami-2"
       | _ => healthy "ami-3"
       end;
     poll_fuel := 10 |}.

(** Every worker fails at the copy step, each for its own reason. *)
Definition all_fail : Env :=
  {| source_remote := healthy "ami-1";
     worker_remote := fun i =>
       match i with
       | O => refusing_copy "quota"
       | _ => refusing_copy "denied"
       end;
     poll_fuel := 10 |}.

Definition heap_with (c : Config) : Heap := {[ 0%nat := c ]}.

End Examples.


(* ===================================================================== *)
(** ** lib/ec2.js: the client options and the image search                *)
(* ===================================================================== *)

Module Ec2Client.

(** [dst[k] = v] on a list of properties: an existing property keeps its
    place and takes the new value, a new one is added at the end. *)
Fixpoint assign (dst : list (string * string)) (k v : string) : list (string * string) :=
  match dst with
  | [] => [(k, v)]
  | (k', v') :: rest =>
      if String.eqb k' k then (k', v) :: rest else (k', v') :: assign rest k v
  end.

(** [_.extend(dst, src)]: the properties of [src] are assigned into
    [dst], in order. *)
Definition extend (dst src : list (string * string)) : list (string * string) :=
  fold_left (fun d kv => assign d (fst kv) (snd kv)) src dst.

(** [Ec2.prototype.getClient]: the options the [AWS.EC2] client is
    constructed with. [typeof clientOptions === 'object'] holds when the
    property is present. *)
Definition getClient (config : Config) (region : string) : list (string * string) :=
  match clientOptions config with
  | Some options => extend (extend [] options) [("region", region)]
  | None => [("region", region)]
  end.

End Ec2Client.

Module FindImages.

(** One entry of [params.Filters]. *)
Record Filter : Type := { f_Name : string; f_Values : list string }.

(** What a search does to the outside world: [describeImages] calls with
    filters (the first field is the client's region) and the waits of the
    retry. *)
Inductive SearchEvent : Type :=
| SvDescribeImages (region : string) (filters : list Filter)
| SvRetryWait (ms : Z).

Definition is_search (e : SearchEvent) : bool :=
  match e with SvDescribeImages _ _ => true | _ => false end.

Definition Search (A : Type) : Type := list SearchEvent -> A * list SearchEvent.

(** [client.describeImages(params, retryCallback)] *)
Definition client_describeImages (R : Remote) (region : string)
    (filters : list Filter) : Search (Result (list Image)) :=
  fun t =>
    (on_describeImages R (length (List.filter is_search t)),
     t ++ [SvDescribeImages region filters]).

(** [async.retry], as in [Ec2.retry_from], on search traces. *)
Fixpoint retry_from {A} (more : nat) (wait : Z) (task : Search (Result A))
    (t : list SearchEvent) : Result A * list SearchEvent :=
  let (r, t') := task t in
  match r, more with
  | Err _, S more' => retry_from more' wait task (t' ++ [SvRetryWait wait])
  | _, _ => (r, t')
  end.

(** The filters [findImages] builds: description, name, then one
    ['tag:' + tag.Key] filter per tag. *)
Definition filters (name description : string) (tags : list Tag) : list Filter :=
  [ {| f_Name := "description"; f_Values := [description] |};
    {| f_Name := "name"; f_Values := [name] |} ]
  ++ List.map (fun tag => {| f_Name := String.append "tag:" (Key tag);
                             f_Values := [Value tag] |}) tags.


End FindImages.

(** ** Further vocabulary *)

Module Attempts.

(** The number of events of one kind in a trace. *)
Definition count (p : Event -> bool) (t : list Event) : nat :=
  length (List.filter p t).

(** The trace of [k + 1] attempts of one call: the call, then [k] times a
    wait of the retry interval and the call again. *)
Definition tries (call : Event) (k : nat) : list Event :=
  call :: concat (replicate k [Spec.retry_wait; call]).


(** The ticks of a poll that ends at its [n + 1]-th query, every query
    answered at the first attempt. *)
Definition polls (cfg : Config) (imageId region : string) (n : nat) : list Event :=
  concat (replicate (S n) [Spec.poll_timeout cfg; EvDescribeImages region [imageId]]).

(** The error argument of the top-level callback for a worker's result. *)
Definition error_of (r : Result string) : option Error :=
  match r with
  | Err e => Some e
  | Ok _ => None
  end.

(** A worker has reported success. *)
Definition succeeded (l : list Notice) : Prop :=
  exists i id, WorkerFinished i (Ok id) ∈ l.

(** Where the fan-out of [n] workers stands: still waiting, ended by the
    first success, or ended by the last of [n] failures. *)
Inductive stage (n : nat) (s : ImageCloner.Fanout) : Prop :=
| waiting :
    ImageCloner.series_called s = false ->
    Spec.callbacks (ImageCloner.log s) = [] ->
    ~ succeeded (ImageCloner.log s) ->
    (1 <= ImageCloner.each_outstanding s)%nat ->
    (ImageCloner.each_outstanding s + length (ImageCloner.finished s))%nat = n ->
    stage n s
| ended_by_success :
    ImageCloner.series_called s = true ->
    (exists rep, Spec.callbacks (ImageCloner.log s) = [(None, rep)]) ->
    stage n s
| ended_by_failures :
    ImageCloner.series_called s = true ->
    (exists err rep, Spec.callbacks (ImageCloner.log s) = [(err, rep)]) ->
    ~ succeeded (ImageCloner.log s) ->
    length (ImageCloner.finished s) = n ->
    stage n s.

(** The report a run over pairwise distinct regions ends with, once every
    worker that can report has done so. *)
Definition final_entry (outcome : option (option (Result string))) : RegionOutcome :=
  match outcome with
  | Some (Some r) => Spec.outcome_of r
  | _ => ImageCloner.not_attempted
  end.

End Attempts.

(** ** The per-region pipeline, told by the answers of the service *)

Module Pipeline.

(** The [k] calls from the [off]-th on are all answered with an error. *)
Definition refused {A} (answers : nat -> Result A) (off k : nat) : Prop :=
  forall j, (j < k)%nat -> exists e, answers (off + j)%nat = Err e.

(** [attempt answers off k r]: a step whose first call is the [off]-th
    call of its operation makes [k + 1] calls and ends with the answer
    [r] of the last of them: the first answer that is not an error, or,
    after three errors, the third one. *)
Inductive attempt {A} (answers : nat -> Result A) (off : nat)
    : nat -> Result A -> Prop :=
| accepted k a :
    (k < 3)%nat -> refused answers off k -> answers (off + k)%nat = Ok a ->
    attempt answers off k (Ok a)
| given_up e :
    refused answers off 2 -> answers (off + 2)%nat = Err e ->
    attempt answers off 2 (Err e).

(** A state that ends the wait, and a state that prolongs it. *)
Definition terminal (state : option string) : Prop :=
  exists s, state = Some s /\ s <> "" /\ s <> "pending".

Definition not_terminal (state : option string) : Prop :=
  state = None \/ state = Some "" \/ state = Some "pending".

Section Worker.

Variable R : Remote.
Variable cfg : Config.
Variable image : Image.
Variable launchPermissions : option (list LaunchPermission).
Variable sourceRegion destinationRegion : string.

(** The one call each step makes, with its parameters. *)
Definition copy_call : Event :=
  EvCopyImage destinationRegion
    {| cp_Name := Name image;
       cp_SourceImageId := ImageId image;
       cp_SourceRegion := sourceRegion;
       cp_Description := Description image |}.

Definition describe_call (clonedImageId : string) : Event :=
  EvDescribeImages destinationRegion [clonedImageId].

Definition tag_call (clonedImageId : string) : Event :=
  EvCreateTags destinationRegion [clonedImageId] (Tags image).

Definition permission_call (clonedImageId : string) : Event :=
  EvModifyImageAttribute destinationRegion
    {| mp_Attribute := "launchPermission";
       mp_ImageId := clonedImageId;
       mp_property := Js.VString "LaunchPermission";
       mp_value := {| Add := launchPermissions; Remove := None |} |}.

(** [polled id off ticks r a]: the wait for the copy [id], watched for
    [ticks] ticks, the first query being the [off]-th [describeImages]
    call. Every tick is one wait of the configured interval followed by
    one query with its retries. The wait ends at the first query that
    fails, that finds no image, or that finds the image in a terminal
    state; it has no result yet when each of the [ticks] queries found a
    state that is not terminal. *)
Inductive polled (clonedImageId : string)
    : nat -> nat -> option (Result unit) -> list Event -> Prop :=
| polled_watched off :
    polled clonedImageId off 0 None []
| polled_failed off ticks k cause :
    attempt (on_describeImages R) off k (Err cause) ->
    polled clonedImageId off (S ticks)
      (Some (Err (CallFailed "describeImages" cause)))
      (Spec.poll_timeout cfg :: Attempts.tries (describe_call clonedImageId) k)
| polled_missing off ticks k :
    attempt (on_describeImages R) off k (Ok []) ->
    polled clonedImageId off (S ticks)
      (Some (Err (NoImageFound clonedImageId)))
      (Spec.poll_timeout cfg :: Attempts.tries (describe_call clonedImageId) k)
| polled_done off ticks k found rest :
    attempt (on_describeImages R) off k (Ok (found :: rest)) ->
    terminal (State found) ->
    polled clonedImageId off (S ticks) (Some (Ok tt))
      (Spec.poll_timeout cfg :: Attempts.tries (describe_call clonedImageId) k)
| polled_again off ticks k found rest r a :
    attempt (on_describeImages R) off k (Ok (found :: rest)) ->
    not_terminal (State found) ->
    polled clonedImageId (off + S k) ticks r a ->
    polled clonedImageId off (S ticks) r
      (Spec.poll_timeout cfg :: Attempts.tries (describe_call clonedImageId) k ++ a).

(** [worker_run ticks r t]: what one worker, watched for [ticks] ticks of
    its wait, yields and does. A step is made only when every step before
    it has succeeded; the calls of the steps that are made follow each
    other in the trace, and the trace holds nothing else. *)
Inductive worker_run (ticks : nat) : option (Result string) -> list Event -> Prop :=
| stopped_at_copy k cause :
    attempt (on_copyImage R) 0 k (Err cause) ->
    worker_run ticks (Some (Err (CallFailed "copyImage" cause)))
      (Attempts.tries copy_call k)
| stopped_at_wait k id e a :
    attempt (on_copyImage R) 0 k (Ok id) ->
    polled id 0 ticks (Some (Err e)) a ->
    worker_run ticks (Some (Err e)) (Attempts.tries copy_call k ++ a)
| still_waiting k id a :
    attempt (on_copyImage R) 0 k (Ok id) ->
    polled id 0 ticks None a ->
    worker_run ticks None (Attempts.tries copy_call k ++ a)
| stopped_at_tags k id a k3 cause :
    attempt (on_copyImage R) 0 k (Ok id) ->
    polled id 0 ticks (Some (Ok tt)) a ->
    attempt (on_createTags R) 0 k3 (Err cause) ->
    worker_run ticks (Some (Err (CallFailed "createTags" cause)))
      (Attempts.tries copy_call k ++ a ++ Attempts.tries (tag_call id) k3)
| stopped_at_permissions k id a k3 k4 cause :
    attempt (on_copyImage R) 0 k (Ok id) ->
    polled id 0 ticks (Some (Ok tt)) a ->
    attempt (on_createTags R) 0 k3 (Ok tt) ->
    attempt (on_modifyImageAttribute R) 0 k4 (Err cause) ->
    worker_run ticks (Some (Err (CallFailed "modifyImageAttribute" cause)))
      (Attempts.tries copy_call k ++ a ++ Attempts.tries (tag_call id) k3
       ++ Attempts.tries (permission_call id) k4)
| completed k id a k3 k4 :
    attempt (on_copyImage R) 0 k (Ok id) ->
    polled id 0 ticks (Some (Ok tt)) a ->
    attempt (on_createTags R) 0 k3 (Ok tt) ->
    attempt (on_modifyImageAttribute R) 0 k4 (Ok tt) ->
    worker_run ticks (Some (Ok id))
      (Attempts.tries copy_call k ++ a ++ Attempts.tries (tag_call id) k3
       ++ Attempts.tries (permission_call id) k4).

End Worker.

End Pipeline.

Module MoreExamples.

(** A service whose [describeImages] always fails. *)
Definition no_describe : Remote :=
  {| on_copyImage := fun _ => Ok "ami-2";
     on_describeImages := fun _ => Err (RemoteError "throttled");
     on_describeImageAttribute := fun _ => Ok Examples.grants;
     on_modifyImageAttribute := fun _ => Ok tt;
     on_createTags := fun _ => Ok tt |}.

(** A service whose [describeImageAttribute] always fails. *)
Definition no_attribute : Remote :=
  {| on_copyImage := fun _ => Ok "ami-2";
     on_describeImages := on_describeImages (Examples.healthy "ami-1");
     on_describeImageAttribute := fun _ => Err (RemoteError "denied");
     on_modifyImageAttribute := fun _ => Ok tt;
     on_createTags := fun _ => Ok tt |}.

Definition source_unavailable : Env :=
  {| source_remote := no_describe;
     worker_remote := fun _ => Examples.healthy "ami-2";
     poll_fuel := 10 |}.

Definition permissions_unavailable : Env :=
  {| source_remote := no_attribute;
     worker_remote := fun _ => Examples.healthy "ami-2";
     poll_fuel := 10 |}.

Definition with_client_options : Config :=
  {| sourceImageId := "ami-1";
     sourceRegion := "us-east-1";
     destinationRegions := ["eu-west-1"];
     progressCheckIntervalInSeconds := Some 30;
     clientOptions := Some [("maxRetries", "2"); ("region", "ap-south-1")] |}.

End MoreExamples.

(* ===================================================================== *)
(** * Properties                                                          *)
(* ===================================================================== *)

(** ** The client wrapper *)

Module Ec2Facts.
Import Spec.

Lemma app_not_nil {A} (l1 l2 : list A) : l1 <> [] -> l1 ++ l2 <> [].
Proof. destruct l1; [congruence | discriminate]. Qed.

Lemma appends_weaken {A} (m : M A) (P P' : Event -> Prop) (Q Q' : A -> Prop) :
  (forall e, P e -> P' e) -> (forall a, Q a -> Q' a) ->
  appends m P Q -> appends m P' Q'.
Proof.
  intros HP HQ Hm t. destruct (Hm t) as (a & new & E & Hne & HF & Ha).
  exists a, new. repeat split; auto. eapply Forall_impl; eauto.
Qed.

(** A bounded retry adds the events of its attempts and the waits between
    them, and ends with the result of one attempt. *)
Lemma retry_from_appends {A} (task : M (Result A)) P Q more wait :
  P (EvRetryWait wait) ->
  appends task P Q ->
  appends (Ec2.retry_from more wait task) P Q.
Proof.
  intros Hw Ht. induction more as [|more IH]; intros t.
  - destruct (Ht t) as (a & n1 & E1 & Hne & HP1 & HQ).
    cbn. unfold bind. rewrite E1. exists a, n1. destruct a; cbn; auto.
  - destruct (Ht t) as (a & n1 & E1 & Hne & HP1 & HQ).
    cbn. unfold bind at 1. rewrite E1.
    destruct a as [e|a].
    + unfold bind, emit.
      destruct (IH ((t ++ n1) ++ [EvRetryWait wait])) as (b & n2 & E2 & Hne2 & HP2 & HQ2).
      rewrite E2. exists b, (n1 ++ [EvRetryWait wait] ++ n2).
      rewrite !app_assoc. repeat split; auto.
      * rewrite <- app_assoc. by apply app_not_nil.
      * rewrite <- app_assoc. apply Forall_app; split; auto. apply Forall_app; split; auto.
    + cbn. exists (Ok a), n1. repeat split; auto.
Qed.

Lemma retry_appends {A} (task : M (Result A)) P Q :
  P retry_wait ->
  appends task P Q ->
  appends (Ec2.retry Ec2.retryConfig task) P Q.
Proof. intros. unfold Ec2.retry. by apply retry_from_appends. Qed.

Section Client.
Variable R : Remote.

Lemma copyImage_appends image sourceRegion destinationRegion :
  appends
    (Ec2.copyImage R (ImageId image) (Name image) (Description image)
       sourceRegion destinationRegion)
    (copy_phase image sourceRegion destinationRegion)
    (fun r => match r with
              | Err e => copy_failure R e
              | Ok id => copied R id
              end).
Proof.
  unfold Ec2.copyImage. apply retry_appends; [by right|].
  intros t. cbv [Ec2.client_copyImage bind calls_so_far emit ret].
  destruct (on_copyImage R (length (List.filter is_copyImage t))) as [e|id] eqn:E;
    eexists _, [_]; (split; [reflexivity|]); repeat split; try discriminate.
  - repeat constructor.
  - by exists (length (List.filter is_copyImage t)), e.
  - repeat constructor.
  - by exists (length (List.filter is_copyImage t)).
Qed.

Lemma describeImage_appends imageId region :
  appends (Ec2.describeImage R imageId region)
    (describe_phase imageId region)
    (fun r => match r with
              | Err e => describe_failure R imageId e
              | Ok _ => True
              end).
Proof.
  intros t. unfold Ec2.describeImage, bind.
  destruct (retry_appends (Ec2.client_describeImages R region [imageId])
              (describe_phase imageId region)
              (fun r => forall e, r = Err e -> exists n, on_describeImages R n = Err e))
    with (t := t) as (r & new & E & Hne & HF & Hr).
  - by right.
  - intros t'. cbv [Ec2.client_describeImages bind calls_so_far emit ret].
    eexists _, [_]. split; [reflexivity|]. repeat split; try discriminate.
    + repeat constructor.
    + intros e He. eauto.
  - rewrite E. destruct r as [e|[|i l]]; cbn; eexists _, new; repeat split; auto.
    + left. destruct (Hr e eq_refl) as [n Hn]. by exists n, e.
    + by right.
Qed.

Lemma tagImage_appends image clonedImageId destinationRegion :
  appends (Ec2.tagImage R clonedImageId destinationRegion (Tags image))
    (tag_phase image destinationRegion clonedImageId)
    (fun r => forall e, r = Err e -> tag_failure R e).
Proof.
  unfold Ec2.tagImage. apply retry_appends; [by right|].
  intros t. cbv [Ec2.client_createTags bind calls_so_far emit ret].
  destruct (on_createTags R (length (List.filter is_createTags t))) as [e|[]] eqn:E;
    eexists _, [_]; (split; [reflexivity|]); repeat split; try discriminate.
  - repeat constructor.
  - intros e' [= <-]. by exists (length (List.filter is_createTags t)), e.
  - repeat constructor.
Qed.

Lemma setLaunchPermissions_appends launchPermissions clonedImageId destinationRegion :
  appends
    (Ec2.modifyImageAttribute R clonedImageId destinationRegion
       Constants.LAUNCH_PERMISSION {| Add := launchPermissions; Remove := None |})
    (permission_phase launchPermissions destinationRegion clonedImageId)
    (fun r => forall e, r = Err e -> permission_failure R e).
Proof.
  intros t. unfold Ec2.modifyImageAttribute. cbn -[Ec2.retry].
  unfold bind.
  destruct (retry_appends
              (Ec2.client_modifyImageAttribute R destinationRegion
                 {| mp_Attribute := "launchPermission";
                    mp_ImageId := clonedImageId;
                    mp_property := Js.VString "LaunchPermission";
                    mp_value := {| Add := launchPermissions; Remove := None |} |})
              (permission_phase launchPermissions destinationRegion clonedImageId)
              (fun r => forall e, r = Err e ->
                                  exists n, on_modifyImageAttribute R n = Err e))
    with (t := t) as (r & new & E & Hne & HF & Hr).
  - by right.
  - intros t'. cbv [Ec2.client_modifyImageAttribute bind calls_so_far emit ret].
    eexists _, [_]. split; [reflexivity|]. repeat split; try discriminate.
    + repeat constructor.
    + intros e He. eauto.
  - unfold Constants.LAUNCH_PERMISSION. rewrite E.
    destruct r as [e|[]]; cbn; eexists _, new; repeat split; auto; try discriminate.
    intros e' [= <-]. destruct (Hr e eq_refl) as [n Hn]. by exists n, e.
Qed.

(** An attribute that is neither in the table nor a name inherited
    from [Object.prototype] is refused before any call is made. *)
Lemma modifyImageAttribute_refuses imageId region attribute value t :
  Js.get Constants.modifyImageAttributesProperty attribute = Js.VUndefined ->
  Ec2.modifyImageAttribute R imageId region attribute value t
  = (Err (UnsupportedAttribute "modifyImageAttribute" attribute), t).
Proof. intros E. unfold Ec2.modifyImageAttribute. by rewrite E. Qed.

Lemma modifyImageAttribute_refuses_foreign imageId region attribute value t :
  attribute <> "launchPermission" -> Js.inherited attribute = false ->
  Ec2.modifyImageAttribute R imageId region attribute value t
  = (Err (UnsupportedAttribute "modifyImageAttribute" attribute), t).
Proof.
  intros Hne Hinh. apply modifyImageAttribute_refuses.
  unfold Js.get, Constants.modifyImageAttributesProperty, Js.own.
  destruct (String.eqb_spec "launchPermission" attribute) as [E|_]; [by subst|].
  by rewrite Hinh.
Qed.

(** With 'launchPermission' the guard is passed: the call reaches the
    client and the result is never the "unsupported attribute" error. *)
Lemma modifyImageAttribute_launchPermission imageId region launchPermissions t :
  exists r new,
    Ec2.modifyImageAttribute R imageId region "launchPermission"
      {| Add := launchPermissions; Remove := None |} t = (r, t ++ new)
    /\ new <> []
    /\ Forall (permission_phase launchPermissions region imageId) new
    /\ forall fn a, r <> Err (UnsupportedAttribute fn a).
Proof.
  destruct (setLaunchPermissions_appends launchPermissions imageId region t)
    as (r & new & E & Hne & HF & Hr).
  exists r, new. repeat split; auto.
  intros fn a ->. destruct (Hr _ eq_refl) as (n & cause & _ & [=]).
Qed.

(** C10, at the attribute name "constructor": the table lookup finds
    the constructor inherited from [Object.prototype], which is
    truthy, so the guard lets the call through: the first thing that
    happens is a [modifyImageAttribute] call on the client, and the
    result is not the "unsupported attribute" error. *)
Theorem modifyImageAttribute_constructor_passes_guard imageId region value :
  exists r trace,
    Ec2.modifyImageAttribute R imageId region "constructor" value [] = (r, trace)
    /\ hd_error trace
       = Some (EvModifyImageAttribute region
                 {| mp_Attribute := "constructor";
                    mp_ImageId := imageId;
                    mp_property := Js.VInherited "constructor";
                    mp_value := value |})
    /\ r <> Err (UnsupportedAttribute "modifyImageAttribute" "constructor").
Proof.
  unfold Ec2.modifyImageAttribute. cbn.
  cbv [bind Ec2.client_modifyImageAttribute calls_so_far emit ret]. cbn.
  destruct (on_modifyImageAttribute R 0) as [e0|[]]; cbn;
    [|by eexists _, _; repeat split].
  destruct (on_modifyImageAttribute R 1) as [e1|[]]; cbn;
    [|by eexists _, _; repeat split].
  destruct (on_modifyImageAttribute R 2) as [e2|[]]; cbn;
    by eexists _, _; repeat split.
Qed.

End Client.
End Ec2Facts.

Module ImageClonerFacts.
Import Spec Ec2Facts.

Lemma timeouts_app (a b : list Event) : timeouts (a ++ b) = (timeouts a + timeouts b)%nat.
Proof. unfold timeouts. by rewrite List.filter_app, length_app. Qed.

Lemma timeouts_describe_phase imageId region q :
  Forall (describe_phase imageId region) q -> timeouts q = 0%nat.
Proof.
  induction 1 as [|e q [->| ->] _ IH]; [done| |]; unfold timeouts in *; cbn; done.
Qed.

Section Worker.
Variable R : Remote.
Variable cfg : Config.

(** One iteration of [async.doUntil], unfolded. *)
Lemma poll_unfold ticks imageId region t :
  ImageCloner.awaitImageCopyCompletion R cfg (S ticks) imageId region t
  = let (r, t') := Ec2.describeImage R imageId region (t ++ [poll_timeout cfg]) in
    match r with
    | Err e => (Some (Err e), t')
    | Ok image =>
        if ImageCloner.copy_completed (State image)
        then (Some (Ok tt), t')
        else ImageCloner.awaitImageCopyCompletion R cfg ticks imageId region t'
    end.
Proof.
  cbn [ImageCloner.awaitImageCopyCompletion]. unfold bind at 1, emit.
  unfold bind at 1. fold (poll_timeout cfg).
  destruct (Ec2.describeImage R imageId region (t ++ [poll_timeout cfg]))
    as [[e|image] t']; [done|].
  by destruct (ImageCloner.copy_completed (State image)).
Qed.

Lemma awaitImageCopyCompletion_extends ticks imageId region :
  forall t, exists r new,
    ImageCloner.awaitImageCopyCompletion R cfg ticks imageId region t = (r, t ++ new)
    /\ Forall (await_phase cfg region imageId) new
    /\ (ticks <> 0%nat -> new <> [])
    /\ match r with
       | Some (Err e) => describe_failure R imageId e
       | Some (Ok _) => True
       | None => timeouts new = ticks
       end.
Proof.
  induction ticks as [|ticks IH]; intros t.
  - exists None, []. cbn. rewrite app_nil_r. repeat split; auto.
  - rewrite poll_unfold.
    destruct (describeImage_appends R imageId region (t ++ [poll_timeout cfg]))
      as (r & q & E & Hne & HF & Hr).
    rewrite E, <- app_assoc.
    assert (HA : Forall (await_phase cfg region imageId) ([poll_timeout cfg] ++ q)).
    { apply Forall_app; split; [repeat constructor|].
      eapply Forall_impl; [exact HF|]. intros e He. by right. }
    destruct r as [e|image].
    { exists (Some (Err e)), ([poll_timeout cfg] ++ q). repeat split; auto; discriminate. }
    destruct (ImageCloner.copy_completed (State image)).
    { exists (Some (Ok tt)), ([poll_timeout cfg] ++ q). repeat split; auto; discriminate. }
    destruct (IH (t ++ [poll_timeout cfg] ++ q)) as (r' & new & E' & HF' & _ & Hr').
    exists r', (([poll_timeout cfg] ++ q) ++ new).
    rewrite E', <- !app_assoc. repeat split.
    + rewrite app_assoc. apply Forall_app; auto.
    + discriminate.
    + destruct r' as [[e|u]|]; auto.
      change ([poll_timeout cfg] ++ q ++ new) with (poll_timeout cfg :: (q ++ new)).
      unfold timeouts in *. cbn. f_equal. fold (timeouts (q ++ new)).
      rewrite timeouts_app, (timeouts_describe_phase _ _ _ HF). exact Hr'.
Qed.

(** C7 (amended). One tick of the completion poller: it first waits one
    interval of [progressCheckIntervalInSeconds] (times 1000, in
    milliseconds), then queries the image through [describeImage]
    ([describeImages] calls on the image's region and the waits of
    their retry, nothing else). An error of the query ends the poll at
    once with that error and no further tick. A state that is
    non-empty and different from "pending" ends the poll with success,
    whatever the state is. A state "pending", and likewise an empty or
    absent state, leads to the next tick, which starts with its own
    wait. *)
Theorem completion_poller_tick ticks imageId region t :
  exists r q,
    Ec2.describeImage R imageId region (t ++ [poll_timeout cfg])
      = (r, t ++ [poll_timeout cfg] ++ q)
    /\ q <> [] /\ Forall (describe_phase imageId region) q
    /\ match r with Err e => describe_failure R imageId e | Ok _ => True end
    /\ ImageCloner.awaitImageCopyCompletion R cfg (S ticks) imageId region t
       = match r with
         | Err e => (Some (Err e), t ++ [poll_timeout cfg] ++ q)
         | Ok image =>
             match State image with
             | Some s =>
                 if String.eqb s "" || String.eqb s "pending"
                 then ImageCloner.awaitImageCopyCompletion R cfg ticks imageId region
                        (t ++ [poll_timeout cfg] ++ q)
                 else (Some (Ok tt), t ++ [poll_timeout cfg] ++ q)
             | None =>
                 ImageCloner.awaitImageCopyCompletion R cfg ticks imageId region
                   (t ++ [poll_timeout cfg] ++ q)
             end
         end.
Proof.
  destruct (describeImage_appends R imageId region (t ++ [poll_timeout cfg]))
    as (r & q & E & Hne & HF & Hr).
  exists r, q. rewrite <- app_assoc in E. repeat split; auto.
  rewrite poll_unfold, E.
  destruct r as [e|image]; [done|].
  unfold ImageCloner.copy_completed, Js.truthy_string, ImageCloner.is_pending.
  destruct (State image) as [s|]; cbn; [|done].
  destruct (String.eqb s ""); cbn; [done|].
  destruct (String.eqb s "pending"); done.
Qed.

(** Whatever a worker waits for outside the retries, it is the interval
    of the configuration it was given. *)
Lemma worker_waits ticks image launchPermissions sourceRegion destinationRegion r t :
  ImageCloner.cloneImageToRegion R cfg ticks image launchPermissions
    sourceRegion destinationRegion [] = (r, t) ->
  Forall (fun e => e = poll_timeout cfg \/ forall ms, e <> EvSetTimeout ms) t.
Proof.
  assert (Hcopy : forall c,
             Forall (copy_phase image sourceRegion destinationRegion) c ->
             Forall (fun e => e = poll_timeout cfg \/ forall ms, e <> EvSetTimeout ms) c).
  { intros c. intros HF. eapply Forall_impl; [exact HF|]. intros e [->| ->]; right; discriminate. }
  assert (Hawait : forall id a,
             Forall (await_phase cfg destinationRegion id) a ->
             Forall (fun e => e = poll_timeout cfg \/ forall ms, e <> EvSetTimeout ms) a).
  { intros id a. intros HF. eapply Forall_impl; [exact HF|]. intros e [->|[->| ->]]; [by left|right..]; discriminate. }
  assert (Htag : forall id g,
             Forall (tag_phase image destinationRegion id) g ->
             Forall (fun e => e = poll_timeout cfg \/ forall ms, e <> EvSetTimeout ms) g).
  { intros id g. intros HF. eapply Forall_impl; [exact HF|]. intros e [->| ->]; right; discriminate. }
  assert (Hperm : forall id p,
             Forall (permission_phase launchPermissions destinationRegion id) p ->
             Forall (fun e => e = poll_timeout cfg \/ forall ms, e <> EvSetTimeout ms) p).
  { intros id p. intros HF. eapply Forall_impl; [exact HF|]. intros e [->| ->]; right; discriminate. }
  unfold ImageCloner.cloneImageToRegion, bind.
  destruct (copyImage_appends R image sourceRegion destinationRegion [])
    as (r1 & c & E1 & _ & HFc & _).
  rewrite E1. cbn [app] in *. destruct r1 as [e|id].
  { intros [= <- <-]. auto. }
  destruct (awaitImageCopyCompletion_extends ticks id destinationRegion c)
    as (r2 & a & E2 & HFa & _).
  rewrite E2. destruct r2 as [[e|u]|]; cycle 2.
  { intros [= <- <-]. apply Forall_app; eauto. }
  { intros [= <- <-]. apply Forall_app; eauto. }
  destruct (tagImage_appends R image id destinationRegion (c ++ a))
    as (r3 & g & E3 & _ & HFg & _).
  rewrite E3. destruct r3 as [e|u3].
  { intros [= <- <-]. repeat (apply Forall_app; split); eauto. }
  destruct (setLaunchPermissions_appends R launchPermissions id destinationRegion
              ((c ++ a) ++ g))
    as (r4 & p & E4 & _ & HFp & _).
  rewrite E4.
  destruct r4 as [e|u4]; intros [= <- <-]; repeat (apply Forall_app; split); eauto.
Qed.
End Worker.

(** C7, as stated, fails: a service that reports the empty state and
    then "available". The empty state is not "pending", yet the poller
    does not return on it: it waits another interval and queries
    again. *)
Lemma poller_keeps_polling_on_empty_state :
  Ec2.describeImage Examples.blank_then_available "ami-2" "eu-west-1"
    [poll_timeout Examples.one_region]
  = (Ok (Examples.image "ami-2" (Some "")),
     [EvSetTimeout (Some 30000); EvDescribeImages "eu-west-1" ["ami-2"]])
  /\ State (Examples.image "ami-2" (Some "")) <> Some "pending"
  /\ ImageCloner.awaitImageCopyCompletion Examples.blank_then_available
       Examples.one_region 1 "ami-2" "eu-west-1" []
     = (None, [EvSetTimeout (Some 30000); EvDescribeImages "eu-west-1" ["ami-2"]])
  /\ ImageCloner.awaitImageCopyCompletion Examples.blank_then_available
       Examples.one_region 5 "ami-2" "eu-west-1" []
     = (Some (Ok tt),
        [EvSetTimeout (Some 30000); EvDescribeImages "eu-west-1" ["ami-2"];
         EvSetTimeout (Some 30000); EvDescribeImages "eu-west-1" ["ami-2"]]).
Proof. repeat split; try reflexivity. discriminate. Qed.

End ImageClonerFacts.

(** ** The report and the fan-out *)

Module ReportFacts.
Import Spec Invariant ImageCloner.

Lemma keyBy_dom_from (regions : list string) (m : gmap string string) :
  dom (foldl (fun m region => <[region := region]> m) m regions)
  = dom m ∪ list_to_set regions.
Proof.
  revert m. induction regions as [|r regions IH]; intros m; cbn.
  - set_solver.
  - rewrite IH, dom_insert_L. set_solver.
Qed.

Lemma initial_results_dom regions :
  dom (initial_results regions) = list_to_set regions.
Proof.
  unfold initial_results, keyBy. rewrite dom_fmap_L, keyBy_dom_from. set_solver.
Qed.

Lemma initial_results_lookup regions region o :
  initial_results regions !! region = Some o -> o = not_attempted.
Proof.
  unfold initial_results. rewrite lookup_fmap.
  destruct (keyBy regions !! region); cbn; congruence.
Qed.

Lemma initial_results_elem regions region :
  region ∈ regions -> initial_results regions !! region = Some not_attempted.
Proof.
  intros Hin.
  assert (Hd : region ∈ dom (initial_results regions)).
  { rewrite initial_results_dom. set_solver. }
  apply elem_of_dom in Hd as [o Ho]. rewrite Ho. f_equal.
  by eapply initial_results_lookup.
Qed.

Lemma finished_elem i (l : list nat) : existsb (Nat.eqb i) l = true <-> i ∈ l.
Proof.
  rewrite existsb_exists. split.
  - intros (x & Hx & E). apply Nat.eqb_eq in E as ->. by apply list_elem_of_In.
  - intros H. exists i. split; [by apply list_elem_of_In | apply Nat.eqb_refl].
Qed.

Lemma callbacks_app l1 l2 : callbacks (l1 ++ l2) = callbacks l1 ++ callbacks l2.
Proof. unfold callbacks. apply flat_map_app. Qed.

Lemma callbacks_imap (f : nat -> string -> Notice) (regions : list string) :
  (forall i region, callbacks [f i region] = []) ->
  callbacks (imap f regions) = [].
Proof.
  revert f. induction regions as [|r regions IH]; intros f Hf; [done|].
  cbn [imap].
  change (f 0%nat r :: imap (f ∘ S) regions)
    with ([f 0%nat r] ++ imap (f ∘ S) regions).
  rewrite callbacks_app, Hf, IH; [done|]. intros i region. apply Hf.
Qed.

Lemma started_only (regions : list string) n :
  n ∈ imap WorkerStarted regions -> exists i region, n = WorkerStarted i region.
Proof.
  intros Hin. apply list_elem_of_lookup in Hin as [i Hi].
  rewrite list_lookup_imap in Hi.
  destruct (regions !! i) as [region|]; cbn in Hi; [|done].
  inversion Hi. eauto.
Qed.

Section Report.
Variable regions : list string.
Variable outcomes : list (option (Result string)).

Local Abbreviation consistent := (consistent regions outcomes).
Local Abbreviation ran := (ran regions outcomes).

Lemma ran_mono done i j region r : ran done i region r -> ran (done ++ [j]) i region r.
Proof. intros (? & ? & ?). split; [set_solver | done]. Qed.

Lemma consistent_callbacks_only s s' :
  consistent s -> callbacks_only s s' -> consistent s'.
Proof.
  intros [K F LF FL LC EE EI] (Hr & Hf & Hm & Hl).
  split; rewrite ?Hr, ?Hf; auto.
  - intros i r Hin. destruct (Hl _ Hin) as [H|[[err H]|[e H]]]; [auto|done|done].
  - intros i Hin. destruct (FL _ Hin) as [r Hr']. eauto.
  - intros err rep Hin. destruct (Hl _ Hin) as [H|[[err' H]|[e H]]]; [eauto| |done].
    by inversion H; subst.
Qed.

Lemma callbacks_only_refl s : callbacks_only s s.
Proof. repeat split; auto. Qed.

Lemma asyncCallback_callbacks_only err s : callbacks_only s (asyncCallback err s).
Proof.
  unfold asyncCallback, note. destruct (series_called s); cbn;
    (repeat split; [done..| |]); cbn; intros n Hin.
  1,3: apply elem_of_app; by left.
  all: apply elem_of_app in Hin as [Hin|Hin]; auto;
    apply list_elem_of_singleton in Hin; subst; eauto.
Qed.

Lemma innerAsyncCallback_callbacks_only s : callbacks_only s (innerAsyncCallback s).
Proof.
  unfold innerAsyncCallback. cbn.
  destruct (Nat.eqb _ 0).
  - apply (asyncCallback_callbacks_only _
             {| results := results s;
                firstCloneImageError := firstCloneImageError s;
                each_outstanding := Nat.pred (each_outstanding s);
                series_called := series_called s;
                finished := finished s;
                log := log s |}).
  - repeat split; auto.
Qed.

Lemma worker_callback_callbacks_only region r s :
  callbacks_only (written region r s) (worker_callback region r s).
Proof.
  destruct r as [e|id]; cbn.
  - destruct (results s !! region) eqn:E.
    + apply innerAsyncCallback_callbacks_only.
    + apply callbacks_only_refl.
  - apply asyncCallback_callbacks_only.
Qed.

(** What a worker's write leaves in the shared variables. *)
Lemma written_reporting s i region r o0 :
  results s !! region = Some o0 ->
  let s' := written region r (reporting i r s) in
  results s'
  = <[region := match r with
                | Err e => {| error := Some e; imageId := imageId o0;
                              success := success o0 |}
                | Ok id => {| error := None; imageId := Some id; success := true |}
                end]> (results s)
  /\ finished s' = finished s ++ [i]
  /\ log s' = log s ++ [WorkerFinished i r]
  /\ each_outstanding s' = each_outstanding s
  /\ series_called s' = series_called s
  /\ firstCloneImageError s'
     = match r, firstCloneImageError s with
       | Err e, None => Some e
       | _, first => first
       end.
Proof.
  intros Ho0. destruct r as [e|id]; cbn; unfold set_error; cbn; rewrite ?Ho0; cbn.
  - repeat split; auto; by destruct (firstCloneImageError s).
  - repeat split; auto.
Qed.

Lemma consistent_written s i region r :
  consistent s ->
  i ∉ finished s -> regions !! i = Some region -> outcomes !! i = Some (Some r) ->
  consistent (written region r (reporting i r s)).
Proof.
  intros [K F LF FL LC EE EI] Hi Hreg Hout.
  assert (Hkey : is_Some (results s !! region)).
  { apply elem_of_dom. rewrite K. apply elem_of_list_to_set.
    by eapply list_elem_of_lookup_2. }
  destruct Hkey as [o0 Ho0].
  assert (Hran : ran (finished s ++ [i]) i region r).
  { split; [set_solver | done]. }
  destruct (written_reporting s i region r o0 Ho0) as (Hres & Hfin & Hlog & _).
  set (o1 := match r with
             | Err e => {| error := Some e; imageId := imageId o0; success := success o0 |}
             | Ok id => {| error := None; imageId := Some id; success := true |}
             end) in *.
  split; rewrite ?Hres, ?Hfin, ?Hlog.
  - rewrite dom_insert_L, K.
    assert (region ∈ (list_to_set regions : gset string)).
    { apply elem_of_list_to_set. by eapply list_elem_of_lookup_2. }
    set_solver.
  - intros j Hj. apply elem_of_app in Hj as [Hj|Hj]; [auto|].
    apply list_elem_of_singleton in Hj as ->. eauto.
  - intros j r' Hj. apply elem_of_app in Hj as [Hj|Hj].
    + destruct (LF _ _ Hj). split; [set_solver|done].
    + apply list_elem_of_singleton in Hj. inversion Hj; subst. split; [set_solver|done].
  - intros j Hj. apply elem_of_app in Hj as [Hj|Hj].
    + destruct (FL _ Hj) as [r' Hr']. exists r'. set_solver.
    + apply list_elem_of_singleton in Hj as ->. exists r. set_solver.
  - intros err rep Hj. apply elem_of_app in Hj as [Hj|Hj]; [eauto|].
    by apply list_elem_of_singleton in Hj.
  - intros region' o. destruct (decide (region = region')) as [<-|Hne].
    + rewrite lookup_insert_eq. intros [= <-]. right. exists i, r. split; [done|].
      subst o1. by destruct r.
    + rewrite lookup_insert_ne by done. intros Ho.
      destruct (EE _ _ Ho) as [[He Hno]|(j & r' & Hj & He)].
      * left. split; [done|]. intros j Hj.
        apply elem_of_app in Hj as [Hj|Hj]; [auto|].
        apply list_elem_of_singleton in Hj as ->. congruence.
      * right. exists j, r'. split; [by apply ran_mono | done].
  - intros region' o. destruct (decide (region = region')) as [<-|Hne].
    + rewrite lookup_insert_eq. intros [= <-]. subst o1. destruct r as [e|id]; cbn.
      * destruct (EI _ _ Ho0) as [(Him & Hs & Hno)|(j & id & Hj & Him & Hs)].
        -- left. repeat split; auto. intros j id (Hj & Hrj & Hoj).
           apply elem_of_app in Hj as [Hj|Hj].
           ++ by apply (Hno j id).
           ++ apply list_elem_of_singleton in Hj as ->. congruence.
        -- right. exists j, id. split; [by apply ran_mono | done].
      * right. exists i, id. done.
    + rewrite lookup_insert_ne by done. intros Ho.
      destruct (EI _ _ Ho) as [(Him & Hs & Hno)|(j & id & Hj & Him & Hs)].
      * left. repeat split; auto. intros j id (Hj & Hrj & Hoj).
        apply elem_of_app in Hj as [Hj|Hj].
        -- by apply (Hno j id).
        -- apply list_elem_of_singleton in Hj as ->. congruence.
      * right. exists j, id. split; [by apply ran_mono | done].
Qed.

(** What [deliver] does when worker [i] really reports. *)
Lemma deliver_reports s i region r :
  i ∉ finished s -> regions !! i = Some region -> outcomes !! i = Some (Some r) ->
  deliver regions outcomes s i = worker_callback region r (reporting i r s).
Proof.
  intros Hi Hreg Hout. unfold deliver.
  destruct (existsb (Nat.eqb i) (finished s)) eqn:Ef.
  - by apply finished_elem in Ef.
  - by rewrite Hreg, Hout.
Qed.

Lemma consistent_deliver s i :
  consistent s -> consistent (deliver regions outcomes s i).
Proof.
  intros Hs.
  destruct (decide (i ∈ finished s)) as [Hin|Hnin].
  { unfold deliver. apply finished_elem in Hin. by rewrite Hin. }
  destruct (regions !! i) as [region|] eqn:Er; cycle 1.
  { unfold deliver. rewrite Er. by destruct (existsb _ _). }
  destruct (outcomes !! i) as [[r|]|] eqn:Eo; cycle 1.
  { unfold deliver. rewrite Er, Eo. by destruct (existsb _ _). }
  { unfold deliver. rewrite Er, Eo. by destruct (existsb _ _). }
  rewrite (deliver_reports s i region r) by done.
  eapply consistent_callbacks_only; [|apply worker_callback_callbacks_only].
  by apply consistent_written.
Qed.

Lemma consistent_run schedule s :
  consistent s -> consistent (foldl (deliver regions outcomes) s schedule).
Proof.
  revert s. induction schedule as [|i schedule IH]; intros s Hs; cbn; [done|].
  apply IH. by apply consistent_deliver.
Qed.

(** The state the fan-out starts in. *)
Lemma consistent_start pending called :
  consistent
    {| results := initial_results regions;
       firstCloneImageError := None;
       each_outstanding := pending;
       series_called := called;
       finished := [];
       log := imap WorkerStarted regions |}.
Proof.
  split; cbn.
  - apply initial_results_dom.
  - intros i Hi. by apply elem_of_nil in Hi.
  - intros i r Hin. apply started_only in Hin as (? & ? & ?). done.
  - intros i Hi. by apply elem_of_nil in Hi.
  - intros err rep Hin. apply started_only in Hin as (? & ? & ?). done.
  - intros region o Ho. apply initial_results_lookup in Ho as ->. left.
    split; [done|]. intros i Hi. by apply elem_of_nil in Hi.
  - intros region o Ho. apply initial_results_lookup in Ho as ->. left.
    repeat split; auto. intros i id (Hi & _). by apply elem_of_nil in Hi.
Qed.

(** While every worker fails, nothing calls back before the last one
    has reported; the error handed over then is the first one that
    was remembered. *)
Lemma all_failed_run schedule :
  forall s first,
    consistent s ->
    all_failed (length schedule) first s ->
    NoDup schedule -> schedule <> [] ->
    (forall i, i ∈ schedule ->
       (i ∉ finished s)
       /\ exists region e, regions !! i = Some region
                           /\ outcomes !! i = Some (Some (Err e))) ->
    exists e0,
      match first with
      | Some f => e0 = f
      | None => exists i0, head schedule = Some i0
                           /\ outcomes !! i0 = Some (Some (Err e0))
      end
      /\ callbacks (log (foldl (deliver regions outcomes) s schedule))
         = [(Some e0, results (foldl (deliver regions outcomes) s schedule))].
Proof.
  induction schedule as [|i rest IH]; intros s first Hs [Ho Hc Hf Hq] Hnd Hne Hall;
    [done|].
  destruct (Hall i) as (Hi & region & e & Hreg & Hout); [set_solver|].
  assert (Hkey : is_Some (results s !! region)).
  { apply elem_of_dom. rewrite (keys_fixed _ _ _ Hs). apply elem_of_list_to_set.
    by eapply list_elem_of_lookup_2. }
  destruct Hkey as [o0 Ho0].
  pose proof (consistent_deliver s i Hs) as Hs'.
  cbn [foldl]. revert Hs'.
  rewrite (deliver_reports s i region (Err e)) by done.
  destruct (written_reporting s i region (Err e) o0 Ho0)
    as (Hres & Hfin & Hlog & Hout' & Hser & Hfirst).
  unfold worker_callback.
  change (results (remember_first e (reporting i (Err e) s))) with (results s).
  rewrite Ho0.
  change (set_error region e (remember_first e (reporting i (Err e) s)))
    with (written region (Err e) (reporting i (Err e) s)).
  remember (written region (Err e) (reporting i (Err e) s)) as w eqn:Ew in *.
  clear Ew. unfold innerAsyncCallback. cbn [each_outstanding firstCloneImageError].
  rewrite Hout', Ho. cbn [length Nat.pred].
  set (e1 := match first with Some f => f | None => e end).
  assert (Hfirst' : firstCloneImageError w = Some e1).
  { rewrite Hfirst, Hf. subst e1. by destruct first. }
  assert (He1 : match first with
                | Some f => e1 = f
                | None => exists i0, head (i :: rest) = Some i0
                                     /\ outcomes !! i0 = Some (Some (Err e1))
                end).
  { subst e1. destruct first; [done|]. exists i. done. }
  destruct rest as [|i' rest'].
  - intros _. exists e1. split; [exact He1|].
    cbn [length Nat.eqb foldl]. unfold asyncCallback. cbn [series_called].
    rewrite Hser, Hc. cbn [log results]. rewrite Hlog, Hfirst'.
    rewrite !callbacks_app, Hq. reflexivity.
  - cbn [length Nat.eqb]. intros Hs'.
    destruct (IH _ (Some e1) Hs') as (e0 & -> & Hcb).
    + split; cbn [each_outstanding series_called firstCloneImageError log].
      * reflexivity.
      * by rewrite Hser.
      * exact Hfirst'.
      * rewrite Hlog, callbacks_app, Hq. reflexivity.
    + by inversion Hnd.
    + done.
    + intros j Hj. destruct (Hall j) as (Hjn & Hj'); [set_solver|].
      split; [|exact Hj']. cbn [finished]. rewrite Hfin.
      intros Hin. apply elem_of_app in Hin as [Hin|Hin]; [done|].
      apply list_elem_of_singleton in Hin as ->. inversion Hnd. done.
    + exists e1. split; [exact He1 | exact Hcb].
Qed.

(** Every worker of the schedule that can report has done so by the
    end of the run. *)
Lemma finished_mono s i j :
  j ∈ finished s -> j ∈ finished (deliver regions outcomes s i).
Proof.
  intros Hj.
  destruct (decide (i ∈ finished s)) as [Hin|Hnin].
  { unfold deliver. apply finished_elem in Hin. by rewrite Hin. }
  destruct (regions !! i) as [region|] eqn:Er; cycle 1.
  { unfold deliver. rewrite Er. by destruct (existsb _ _). }
  destruct (outcomes !! i) as [[r|]|] eqn:Eo; cycle 1.
  { unfold deliver. rewrite Er, Eo. by destruct (existsb _ _). }
  { unfold deliver. rewrite Er, Eo. by destruct (existsb _ _). }
  rewrite (deliver_reports s i region r) by done.
  destruct (worker_callback_callbacks_only region r (reporting i r s))
    as (_ & -> & _).
  destruct r; cbn; unfold set_error; cbn;
    destruct (results s !! region); cbn; set_solver.
Qed.

Lemma finished_after_run schedule :
  forall s i region r,
    i ∈ schedule -> regions !! i = Some region -> outcomes !! i = Some (Some r) ->
    i ∈ finished (foldl (deliver regions outcomes) s schedule).
Proof.
  assert (Hkeep : forall l s j, j ∈ finished s ->
                    j ∈ finished (foldl (deliver regions outcomes) s l)).
  { induction l as [|k l IHl]; intros s j Hj; cbn; [done|].
    apply IHl. by apply finished_mono. }
  induction schedule as [|k rest IH]; intros s i region r Hin Hreg Hout.
  { by apply elem_of_nil in Hin. }
  cbn [foldl]. apply elem_of_cons in Hin as [->|Hin]; [|by eapply IH].
  apply Hkeep.
  destruct (decide (k ∈ finished s)) as [Hk|Hk]; [by apply finished_mono|].
  rewrite (deliver_reports s k region r) by done.
  destruct (worker_callback_callbacks_only region r (reporting k r s))
    as (_ & -> & _).
  destruct r; cbn; unfold set_error; cbn;
    destruct (results s !! region); cbn; set_solver.
Qed.

End Report.

End ReportFacts.

(** ** The top-level operation *)

Module CloneImageFacts.
Import Spec Invariant ImageCloner ReportFacts.

Lemma callbacks_elem err rep (l : list Notice) :
  (err, rep) ∈ callbacks l <-> CallbackInvoked err rep ∈ l.
Proof.
  induction l as [|n l IH]; cbn.
  - split; intros H; by apply elem_of_nil in H.
  - rewrite elem_of_app, elem_of_cons, IH.
    destruct n; cbn; rewrite ?elem_of_nil, ?list_elem_of_singleton;
      split; intros [H|H]; auto; try done; left; congruence.
Qed.

(** The runs of the workers, as [cloneImageToRegions] computes them. *)
Lemma fanout_runs env cfg results0 image perms schedule :
  snd (cloneImageToRegions env cfg results0 image perms schedule)
  = imap (fun i region =>
            cloneImageToRegion (worker_remote env i) cfg (poll_fuel env)
              image perms (sourceRegion cfg) region [])
         (destinationRegions cfg).
Proof. reflexivity. Qed.

Lemma fanout_consistent env cfg image perms schedule :
  let fan := cloneImageToRegions env cfg (initial_results (destinationRegions cfg))
               image perms schedule in
  consistent (destinationRegions cfg) (fst <$> snd fan) (fst fan).
Proof.
  intros fan. subst fan. unfold cloneImageToRegions. cbn [fst snd].
  apply consistent_run.
  destruct (Nat.eqb (length (destinationRegions cfg)) 0).
  - eapply consistent_callbacks_only; [|apply asyncCallback_callbacks_only].
    apply consistent_start.
  - apply consistent_start.
Qed.

(** The two ways a run ends: stopped before the fan-out, with the
    placeholders untouched and no worker started, or through the
    fan-out. *)
Lemma cloneImage_with_cases env cfg schedule :
  (exists err t,
      cloneImage_with env cfg schedule
      = stopped err (initial_results (destinationRegions cfg)) t)
  \/ (exists image perms t,
        ConfigValidator.validate cfg = []
        /\ let fan := cloneImageToRegions env cfg
                        (initial_results (destinationRegions cfg))
                        image perms schedule in
           cloneImage_with env cfg schedule
           = {| report := results (fst fan);
                notices := log (fst fan);
                source_trace := t;
                worker_runs := snd fan |}).
Proof.
  unfold cloneImage_with.
  destruct (ConfigValidator.validate cfg) as [|v vs] eqn:Ev; [|left; eauto].
  destruct (Ec2.describeImage _ _ _ _) as [[e|image] t1]; [left; eauto|].
  destruct (Ec2.describeImageAttribute _ _ _ _ _) as [[e|perms] t2]; [left; eauto|].
  right. exists image, perms, t2. split; [done|]. cbn zeta.
  by destruct (cloneImageToRegions _ _ _ _ _ _).
Qed.

(** A failed source lookup ends the run at once, with that error and
    the placeholders; the permissions are not asked for after a failed
    image lookup, and no worker is started. *)
Lemma source_image_lookup_failure env cfg schedule e t :
  ConfigValidator.validate cfg = [] ->
  Ec2.describeImage (source_remote env) (sourceImageId cfg) (sourceRegion cfg) []
  = (Err e, t) ->
  cloneImage_with env cfg schedule
  = stopped e (initial_results (destinationRegions cfg)) t
  /\ Forall (describe_phase (sourceImageId cfg) (sourceRegion cfg)) t.
Proof.
  intros Hv He. unfold cloneImage_with. rewrite Hv, He. split; [done|].
  destruct (Ec2Facts.describeImage_appends (source_remote env) (sourceImageId cfg)
              (sourceRegion cfg) []) as (r & new & E & _ & HF & _).
  rewrite He in E. by inversion E; subst.
Qed.

Lemma source_permissions_lookup_failure env cfg schedule image t1 e t2 :
  ConfigValidator.validate cfg = [] ->
  Ec2.describeImage (source_remote env) (sourceImageId cfg) (sourceRegion cfg) []
  = (Ok image, t1) ->
  Ec2.describeImageAttribute (source_remote env) (sourceImageId cfg) (sourceRegion cfg)
    Constants.LAUNCH_PERMISSION t1 = (Err e, t2) ->
  cloneImage_with env cfg schedule
  = stopped e (initial_results (destinationRegions cfg)) t2.
Proof.
  intros Hv Hi He. unfold cloneImage_with. by rewrite Hv, Hi, He.
Qed.

(** C8. When validation reports any violation, the callback is invoked
    once, with a single error that carries every violation; no remote
    call is made, no worker is started, and the report holds the
    "not attempted" placeholder for every configured region and nothing
    else. *)
Theorem invalid_configuration_stops env cfg schedule :
  ConfigValidator.validate cfg <> [] ->
  let run := cloneImage_with env cfg schedule in
  notices run
  = [CallbackInvoked (Some (InvalidConfig (ConfigValidator.validate cfg))) (report run)]
  /\ source_trace run = []
  /\ worker_runs run = []
  /\ (forall region, region ∈ destinationRegions cfg ->
        report run !! region = Some not_attempted)
  /\ (forall region o, report run !! region = Some o -> o = not_attempted).
Proof.
  intros Hv. unfold cloneImage_with.
  destruct (ConfigValidator.validate cfg) as [|v vs]; [done|]. cbn.
  repeat split; auto.
  - apply initial_results_elem.
  - apply initial_results_lookup.
Qed.

Lemma invalid_configuration_stops_witness :
  ConfigValidator.validate Examples.without_source_image <> []
  /\ notices (cloneImage_with Examples.all_succeed Examples.without_source_image [0; 1]%nat)
     = [CallbackInvoked
          (Some (InvalidConfig [ {| v_property := "sourceImageId";
                                    v_keyword := "minLength" |} ]))
          (report (cloneImage_with Examples.all_succeed
                     Examples.without_source_image [0; 1]%nat))].
Proof.
  split; [discriminate|].
  apply (invalid_configuration_stops Examples.all_succeed
           Examples.without_source_image [0; 1]%nat).
  discriminate.
Defined.

(** C4, as stated, fails: naming the same region twice is accepted by
    the validator, and the report then has one key, not two. *)
Lemma one_key_for_a_region_named_twice :
  length (destinationRegions Examples.same_region_twice) = 2%nat
  /\ ConfigValidator.validate Examples.same_region_twice = []
  /\ size (report (cloneImage_with Examples.all_succeed
                     Examples.same_region_twice [0; 1]%nat)) = 1%nat.
Proof. repeat split; vm_compute; reflexivity. Qed.

(** C4 (amended). Wherever the run stopped and whatever failed, the
    report (the object itself, and what each invocation of the callback
    saw of it) has exactly the configured regions as its keys, one key
    per distinct region: N keys when the N entries are pairwise
    distinct. Every region none of whose workers has reported still
    holds the "not attempted" placeholder. *)
Theorem report_keys env cfg schedule :
  let run := cloneImage_with env cfg schedule in
  dom (report run) = list_to_set (destinationRegions cfg)
  /\ (forall err rep, (err, rep) ∈ callbacks (notices run) ->
        dom rep = list_to_set (destinationRegions cfg))
  /\ (NoDup (destinationRegions cfg) ->
        size (report run) = length (destinationRegions cfg))
  /\ (forall region o,
        report run !! region = Some o ->
        (forall i r, destinationRegions cfg !! i = Some region ->
                     WorkerFinished i r ∉ notices run) ->
        o = not_attempted).
Proof.
  intros run.
  assert (Hdom : dom (report run) = list_to_set (destinationRegions cfg)
                 /\ (forall err rep, (err, rep) ∈ callbacks (notices run) ->
                       dom rep = list_to_set (destinationRegions cfg))
                 /\ (forall region o,
                       report run !! region = Some o ->
                       (forall i r, destinationRegions cfg !! i = Some region ->
                                    WorkerFinished i r ∉ notices run) ->
                       o = not_attempted)).
  { subst run.
    destruct (cloneImage_with_cases env cfg schedule)
      as [(err & t & ->)|(image & perms & t & _ & ->)]; cbn [report notices stopped].
    - repeat split.
      + apply initial_results_dom.
      + intros err' rep Hin. cbn in Hin. apply list_elem_of_singleton in Hin.
        inversion Hin. apply initial_results_dom.
      + intros region o Ho _. by eapply initial_results_lookup.
    - destruct (fanout_consistent env cfg image perms schedule)
        as [K F LF FL LC EE EI].
      repeat split.
      + exact K.
      + intros err rep Hin. apply callbacks_elem in Hin. eauto.
      + intros region o Ho Hnone.
        assert (Hno : forall i r, ~ ran (destinationRegions cfg)
                                     (fst <$> snd (cloneImageToRegions env cfg
                                        (initial_results (destinationRegions cfg))
                                        image perms schedule))
                                     (finished (fst (cloneImageToRegions env cfg
                                        (initial_results (destinationRegions cfg))
                                        image perms schedule))) i region r).
        { intros i r (Hi & Hreg & _). destruct (FL _ Hi) as [r' Hr'].
          by apply (Hnone i r'). }
        destruct (EE _ _ Ho) as [[He _]|(i & r & Hran & _)]; [|by destruct (Hno i r)].
        destruct (EI _ _ Ho) as [(Him & Hs & _)|(i & id & Hran & _)];
          [|by destruct (Hno i (Ok id))].
        destruct o; cbn in *; subst; reflexivity. }
  destruct Hdom as (Hd & Hc & Hp). repeat split; auto.
  intros Hnd. rewrite <- size_dom, Hd. by apply size_list_to_set.
Qed.

Lemma report_keys_witness :
  NoDup (destinationRegions Examples.two_regions)
  /\ size (report (cloneImage_with Examples.first_fails Examples.two_regions [1]%nat))
     = 2%nat.
Proof.
  assert (Hnd : NoDup (destinationRegions Examples.two_regions)).
  { cbn. repeat constructor; set_solver. }
  split; [exact Hnd|].
  exact (proj1 (proj2 (proj2
          (report_keys Examples.first_fails Examples.two_regions [1]%nat))) Hnd).
Defined.

(** C9, as stated, fails: with a region named twice, a success followed
    by a failure for the same region leaves an entry with both an image
    identifier and an error. *)
Lemma entry_with_image_and_error :
  report (cloneImage_with Examples.first_succeeds Examples.same_region_twice
            [0; 1]%nat) !! "eu-west-1"
  = Some {| error := Some (CallFailed "copyImage" (RemoteError "quota"));
            imageId := Some "ami-2";
            success := true |}.
Proof. vm_compute. reflexivity. Qed.

(** C9 (amended). When the destination regions are pairwise distinct,
    the entry of every region whose worker has reported has exactly one
    of [imageId] and [error] populated: after a success, [success] is
    true with the new image identifier and no error; after a failure,
    [success] is false with the failure cause and no image
    identifier. *)
Theorem completed_entry_well_formed env cfg schedule i region r :
  NoDup (destinationRegions cfg) ->
  let run := cloneImage_with env cfg schedule in
  destinationRegions cfg !! i = Some region ->
  WorkerFinished i r ∈ notices run ->
  report run !! region = Some (outcome_of r) /\ well_formed (outcome_of r).
Proof.
  intros Hnd run Hreg Hfin. split; cycle 1.
  { destruct r; [right|left]; cbn; done. }
  subst run.
  destruct (cloneImage_with_cases env cfg schedule)
    as [(err & t & E)|(image & perms & t & _ & E)]; rewrite E in *;
    cbn [report notices stopped] in *.
  { apply list_elem_of_singleton in Hfin. done. }
  destruct (fanout_consistent env cfg image perms schedule)
    as [K F LF FL LC EE EI].
  destruct (LF _ _ Hfin) as [Hi Hout].
  assert (Hkey : is_Some (results (fst (cloneImageToRegions env cfg
                   (initial_results (destinationRegions cfg)) image perms schedule))
                 !! region)).
  { apply elem_of_dom. rewrite K. apply elem_of_list_to_set.
    by eapply list_elem_of_lookup_2. }
  destruct Hkey as [o Ho]. rewrite Ho. f_equal.
  assert (Hsame : forall j r', ran (destinationRegions cfg)
                    (fst <$> snd (cloneImageToRegions env cfg
                       (initial_results (destinationRegions cfg)) image perms schedule))
                    (finished (fst (cloneImageToRegions env cfg
                       (initial_results (destinationRegions cfg)) image perms schedule)))
                    j region r' -> r' = r).
  { intros j r' (_ & Hj & Hoj).
    assert (j = i) as -> by (eapply NoDup_lookup; eauto). congruence. }
  destruct (EE _ _ Ho) as [[_ Hno]|(j & r' & Hran & He)].
  { by destruct (Hno i Hi). }
  rewrite (Hsame _ _ Hran) in He.
  destruct (EI _ _ Ho) as [(Him & Hs & Hno)|(j' & id & Hran' & Him & Hs)].
  - destruct r as [e|id].
    + destruct o; cbn in *; subst; reflexivity.
    + destruct (Hno i id). split; [done|]. split; done.
  - pose proof (Hsame _ _ Hran') as <-.
    destruct o; cbn in *; subst; reflexivity.
Qed.

Lemma completed_entry_well_formed_witness :
  report (cloneImage_with Examples.first_fails Examples.two_regions [1; 0]%nat)
    !! "eu-west-1"
  = Some (outcome_of (Err (CallFailed "copyImage" (RemoteError "quota"))))
  /\ well_formed (outcome_of (Err (CallFailed "copyImage" (RemoteError "quota")))).
Proof.
  apply (completed_entry_well_formed Examples.first_fails Examples.two_regions
           [1; 0]%nat 0%nat "eu-west-1").
  - cbn. repeat constructor; set_solver.
  - reflexivity.
  - vm_compute. set_solver.
Defined.

(** C3, as stated, fails: both workers fail, the worker of the second
    region reports first. The error handed to the callback is that of
    the second region, not that of the first failing region in the
    order of [destinationRegions]. *)
Lemma error_of_the_first_to_report :
  let run := cloneImage_with Examples.all_fail Examples.two_regions [1; 0]%nat in
  worker_failures (worker_runs run)
  = [ (0%nat, CallFailed "copyImage" (RemoteError "quota"));
      (1%nat, CallFailed "copyImage" (RemoteError "denied")) ]
  /\ fst <$> callbacks (notices run)
     = [ Some (CallFailed "copyImage" (RemoteError "denied")) ].
Proof. split; vm_compute; reflexivity. Qed.

(** C3 (amended). When every region worker fails, the callback is
    invoked once, after the last worker has reported; the error it
    receives is the failure of the worker that reported first (the
    chronologically first failure), and the report delivered with it
    records, for every configured region, the failure of a worker of
    that region. *)
Theorem first_reported_failure env cfg i0 rest :
  let schedule := i0 :: rest in
  let run := cloneImage_with env cfg schedule in
  schedule ≡ₚ seq 0 (length (destinationRegions cfg)) ->
  worker_runs run <> [] ->
  (forall wr, wr ∈ worker_runs run -> exists e, fst wr = Some (Err e)) ->
  exists e0 t0,
    worker_runs run !! i0 = Some (Some (Err e0), t0)
    /\ callbacks (notices run) = [(Some e0, report run)]
    /\ forall region, region ∈ destinationRegions cfg ->
         exists i e t,
           destinationRegions cfg !! i = Some region
           /\ worker_runs run !! i = Some (Some (Err e), t)
           /\ report run !! region = Some (outcome_of (Err e)).
Proof.
  intros schedule run Hperm Hruns Hfail. subst run.
  destruct (cloneImage_with_cases env cfg schedule)
    as [(err & t & E)|(image & perms & t & _ & E)]; rewrite E in *;
    cbn [report notices worker_runs stopped] in *; [done|]. clear E.
  pose proof (fanout_consistent env cfg image perms schedule) as Hcons.
  cbn zeta in Hcons. revert Hcons Hruns Hfail.
  unfold cloneImageToRegions. cbn [fst snd].
  set (regions := destinationRegions cfg).
  set (runs := imap _ regions).
  set (outcomes := fst <$> runs).
  intros Hcons Hruns Hfail.
  assert (Hlen : length runs = length regions) by apply length_imap.
  assert (Hout : forall i r, outcomes !! i = Some r ->
                   exists e tr, r = Some (Err e) /\ runs !! i = Some (Some (Err e), tr)).
  { intros i r Hi. subst outcomes. rewrite list_lookup_fmap in Hi.
    destruct (runs !! i) as [[o tr]|] eqn:Ei; [|done]. cbn in Hi.
    injection Hi as <-.
    destruct (Hfail (o, tr)) as [e He]; [by eapply list_elem_of_lookup_2|].
    cbn in He. subst o. eauto. }
  assert (Hvalid : forall i, (i < length regions)%nat ->
                     exists region e, regions !! i = Some region
                                      /\ outcomes !! i = Some (Some (Err e))).
  { intros i Hi. destruct (lookup_lt_is_Some_2 regions i Hi) as [region Hr].
    assert (Hi' : (i < length outcomes)%nat).
    { subst outcomes. by rewrite length_fmap, Hlen. }
    destruct (lookup_lt_is_Some_2 outcomes i Hi') as [r Hr'].
    destruct (Hout _ _ Hr') as (e & tr & -> & _). eauto. }
  assert (Hsched : forall i, i ∈ schedule <-> (i < length regions)%nat).
  { intros i. rewrite Hperm, elem_of_seq. subst regions. lia. }
  assert (Hnd : NoDup schedule).
  { rewrite Hperm. apply NoDup_seq. }
  assert (Hn : Nat.eqb (length regions) 0 = false).
  { apply Nat.eqb_neq. intros Hz. apply Hruns.
    apply length_zero_iff_nil. by rewrite Hlen. }
  rewrite Hn in *.
  set (s0 := {| results := initial_results regions;
                firstCloneImageError := None;
                each_outstanding := length regions;
                series_called := false;
                finished := [];
                log := imap WorkerStarted regions |}) in *.
  destruct (all_failed_run regions outcomes schedule s0 None) as (e0 & (j & Hj & Hj') & Hcb).
  { apply consistent_start. }
  { split; [|done|done|by apply callbacks_imap].
    apply Permutation_length in Hperm. rewrite length_seq in Hperm.
    symmetry. exact Hperm. }
  { exact Hnd. }
  { done. }
  { intros i Hi. split; [cbn; apply not_elem_of_nil|]. by apply Hvalid, Hsched. }
  cbn in Hj. inversion Hj; subst j.
  destruct (Hout _ _ Hj') as (e & tr & He & Hrun). inversion He; subst e.
  exists e0, tr. split; [exact Hrun|]. split; [exact Hcb|].
  intros region Hregion.
  apply list_elem_of_lookup_1 in Hregion as [i Hi].
  assert (Hlt : (i < length regions)%nat) by (by eapply lookup_lt_Some).
  destruct (Hvalid i Hlt) as (region' & e & Hreg' & Houti).
  assert (Hfin : i ∈ finished (foldl (deliver regions outcomes) s0 schedule)).
  { eapply finished_after_run; eauto. by apply Hsched. }
  destruct Hcons as [K F LF FL LC EE EI].
  assert (Hkey : is_Some (results (foldl (deliver regions outcomes) s0 schedule)
                          !! region)).
  { apply elem_of_dom. rewrite K. apply elem_of_list_to_set.
    by eapply list_elem_of_lookup_2. }
  destruct Hkey as [o Ho].
  destruct (EE _ _ Ho) as [[_ Hno]|(k & r & (Hk & Hkr & Hko) & Herr)].
  { by destruct (Hno i Hfin). }
  destruct (Hout _ _ Hko) as (ek & trk & Hrk & Hrunk). inversion Hrk; subst r.
  exists k, ek, trk. split; [exact Hkr|]. split; [exact Hrunk|].
  rewrite Ho. f_equal.
  destruct (EI _ _ Ho) as [(Him & Hs & _)|(k' & id & (_ & _ & Hko') & _)].
  - destruct o; cbn in *; subst; reflexivity.
  - destruct (Hout _ _ Hko') as (? & ? & [=] & _).
Qed.

Lemma first_reported_failure_witness :
  exists e0 t0,
    worker_runs (cloneImage_with Examples.all_fail Examples.two_regions [1; 0]%nat)
      !! 1%nat = Some (Some (Err e0), t0)
    /\ callbacks (notices (cloneImage_with Examples.all_fail Examples.two_regions
                             [1; 0]%nat))
       = [(Some e0,
           report (cloneImage_with Examples.all_fail Examples.two_regions [1; 0]%nat))]
    /\ forall region, region ∈ destinationRegions Examples.two_regions ->
         exists i e t,
           destinationRegions Examples.two_regions !! i = Some region
           /\ worker_runs (cloneImage_with Examples.all_fail Examples.two_regions
                             [1; 0]%nat) !! i = Some (Some (Err e), t)
           /\ report (cloneImage_with Examples.all_fail Examples.two_regions [1; 0]%nat)
                !! region = Some (outcome_of (Err e)).
Proof.
  apply (first_reported_failure Examples.all_fail Examples.two_regions 1%nat [0%nat]).
  - cbn. apply perm_swap.
  - vm_compute. discriminate.
  - vm_compute. intros wr Hwr.
    apply elem_of_cons in Hwr as [->|Hwr]; [eexists; reflexivity|].
    apply list_elem_of_singleton in Hwr as ->. eexists; reflexivity.
Defined.

(** C1, at two regions of which the first fails and the second
    succeeds: whichever worker reports first, the callback is invoked
    without an error, although a region worker failed; when the
    successful worker reports first, the report the callback sees does
    not yet hold the outcome of the other region. *)
Theorem no_error_although_a_region_failed :
  let failure := CallFailed "copyImage" (RemoteError "quota") in
  let run := cloneImage_with Examples.first_fails Examples.two_regions [0; 1]%nat in
  let run' := cloneImage_with Examples.first_fails Examples.two_regions [1; 0]%nat in
  ConfigValidator.validate Examples.two_regions = []
  /\ worker_failures (worker_runs run) = [(0%nat, failure)]
  /\ callbacks (notices run)
     = [(None, <["us-west-2" := outcome_of (Ok "ami-2")]>
                 (<["eu-west-1" := outcome_of (Err failure)]>
                    (initial_results ["eu-west-1"; "us-west-2"])))]
  /\ worker_failures (worker_runs run') = [(0%nat, failure)]
  /\ callbacks (notices run')
     = [(None, <["us-west-2" := outcome_of (Ok "ami-2")]>
                 (initial_results ["eu-west-1"; "us-west-2"]))].
Proof. repeat split; vm_compute; reflexivity. Qed.

(** C2, at two regions whose workers both succeed: the callback is
    invoked as soon as the first worker has reported, while the second
    one is still running and its region still holds the placeholder;
    when the second worker reports, the already used task callback is
    invoked again and async throws. *)
Theorem callback_before_the_last_worker :
  notices (cloneImage_with Examples.all_succeed Examples.two_regions [0; 1]%nat)
  = [ WorkerStarted 0 "eu-west-1";
      WorkerStarted 1 "us-west-2";
      WorkerFinished 0 (Ok "ami-2");
      CallbackInvoked None
        (<["eu-west-1" := outcome_of (Ok "ami-2")]>
           (initial_results ["eu-west-1"; "us-west-2"]));
      WorkerFinished 1 (Ok "ami-3");
      Thrown CallbackAlreadyCalled ].
Proof. vm_compute. reflexivity. Qed.

(** For comparison: with a single region the callback comes after the
    only worker, with or without an error. *)
Lemma single_region_runs :
  notices (cloneImage_with Examples.all_succeed Examples.one_region [0]%nat)
  = [ WorkerStarted 0 "eu-west-1";
      WorkerFinished 0 (Ok "ami-2");
      CallbackInvoked None {[ "eu-west-1" := outcome_of (Ok "ami-2") ]} ]
  /\ notices (cloneImage_with Examples.all_fail Examples.one_region [0]%nat)
     = [ WorkerStarted 0 "eu-west-1";
         WorkerFinished 0 (Err (CallFailed "copyImage" (RemoteError "quota")));
         CallbackInvoked (Some (CallFailed "copyImage" (RemoteError "quota")))
           {[ "eu-west-1"
              := outcome_of (Err (CallFailed "copyImage" (RemoteError "quota"))) ]} ].
Proof. split; vm_compute; reflexivity. Qed.

End CloneImageFacts.

(** ** The configuration object *)

Module ConfigurationFacts.
Import ImageCloner.

Lemma defaults_present c :
  progressCheckIntervalInSeconds c <> None -> defaults c = c.
Proof. unfold defaults. by destruct (progressCheckIntervalInSeconds c). Qed.

Lemma defaults_filled c :
  progressCheckIntervalInSeconds (defaults c) <> None.
Proof. unfold defaults. by destruct (progressCheckIntervalInSeconds c) eqn:E; cbn; rewrite ?E. Qed.

Lemma alter_defaults (h : gmap nat Config) l c :
  h !! l = Some c -> alter defaults l h = <[l := defaults c]> h.
Proof.
  intros Hl. apply map_eq. intros k. destruct (decide (l = k)) as [<-|Hne].
  - by rewrite lookup_alter_eq, lookup_insert_eq, Hl.
  - by rewrite lookup_alter_ne, lookup_insert_ne.
Qed.

(** The workers of a run are those the fan-out starts on the
    configuration of the run. *)
Lemma worker_of_run env cfg schedule r t :
  (r, t) ∈ worker_runs (cloneImage_with env cfg schedule) ->
  exists i region image perms,
    cloneImageToRegion (worker_remote env i) cfg (poll_fuel env) image perms
      (sourceRegion cfg) region [] = (r, t).
Proof.
  destruct (CloneImageFacts.cloneImage_with_cases env cfg schedule)
    as [(err & t0 & ->)|(image & perms & t0 & _ & ->)]; cbn [worker_runs stopped].
  - intros H. by apply elem_of_nil in H.
  - rewrite CloneImageFacts.fanout_runs. intros H.
    apply list_elem_of_lookup in H as [i H].
    apply list_lookup_imap_Some in H as (region & _ & H).
    exists i, region, image, perms. done.
Qed.

(** C5, as stated, fails: a caller's configuration without
    [progressCheckIntervalInSeconds] comes back from [cloneImage] with
    the property set to 30. *)
Lemma caller_configuration_is_modified :
  exists h' run,
    Index.cloneImage (Examples.heap_with Examples.without_interval) 0
      Examples.all_succeed [0%nat] = Some (h', run)
    /\ progressCheckIntervalInSeconds
         <$> (Examples.heap_with Examples.without_interval !! 0%nat) = Some None
    /\ progressCheckIntervalInSeconds <$> (h' !! 0%nat) = Some (Some 30).
Proof.
  eexists _, _. split; [reflexivity|]. split; vm_compute; reflexivity.
Qed.

(** C5 (amended). The cloner works on the caller's configuration object
    itself and on no copy of it. After an invocation that object holds
    30 as [progressCheckIntervalInSeconds] when the caller had left the
    property out; a value the caller gave is kept, and so is every other
    property; no other object is touched, and an object that came with
    the property is left as it was. All of this is done by the
    construction: [cloneImage] hands back the objects as construction
    left them, it runs on the configuration so filled, and every wait of
    every worker's poller is of the interval found there, times 1000. *)
Theorem configuration_defaults_in_place (h : gmap nat Config) l c env schedule :
  h !! l = Some c ->
  exists h1 c1 run,
    Index.cloneImage h l env schedule = Some (h1, run)
    /\ new h l = (h1, {| config := l |})
    /\ h1 !! l = Some c1
    /\ sourceImageId c1 = sourceImageId c
    /\ sourceRegion c1 = sourceRegion c
    /\ destinationRegions c1 = destinationRegions c
    /\ clientOptions c1 = clientOptions c
    /\ progressCheckIntervalInSeconds c1
       = match progressCheckIntervalInSeconds c with
         | Some n => Some n
         | None => Some 30
         end
    /\ (forall l', l' <> l -> h1 !! l' = h !! l')
    /\ (progressCheckIntervalInSeconds c <> None -> h1 = h)
    /\ cloneImage h1 {| config := l |} env schedule = Some (h1, run)
    /\ run = cloneImage_with env c1 schedule
    /\ (forall r t ms,
          (r, t) ∈ worker_runs run -> EvSetTimeout ms ∈ t ->
          ms = match progressCheckIntervalInSeconds c with
               | Some n => Some (n * 1000)
               | None => Some 30000
               end).
Proof.
  intros Hl.
  exists (alter defaults l h), (defaults c), (cloneImage_with env (defaults c) schedule).
  assert (Hc1 : alter defaults l h !! l = Some (defaults c)).
  { by rewrite lookup_alter_eq, Hl. }
  assert (Hrun : cloneImage (alter defaults l h) {| config := l |} env schedule
                 = Some (alter defaults l h, cloneImage_with env (defaults c) schedule)).
  { unfold cloneImage. cbn [config]. by rewrite Hc1. }
  assert (Hint : progressCheckIntervalInSeconds (defaults c)
                 = match progressCheckIntervalInSeconds c with
                   | Some n => Some n
                   | None => Some 30
                   end).
  { unfold defaults. by destruct (progressCheckIntervalInSeconds c) eqn:E; cbn; rewrite ?E. }
  split; [exact Hrun|]. split; [reflexivity|]. split; [exact Hc1|].
  split; [unfold defaults; by destruct (progressCheckIntervalInSeconds c)|].
  split; [unfold defaults; by destruct (progressCheckIntervalInSeconds c)|].
  split; [unfold defaults; by destruct (progressCheckIntervalInSeconds c)|].
  split; [unfold defaults; by destruct (progressCheckIntervalInSeconds c)|].
  split; [exact Hint|].
  split; [intros l' Hne; by rewrite lookup_alter_ne|].
  split.
  { intros Hp. rewrite (alter_defaults h l c Hl), defaults_present by done.
    by apply insert_id. }
  split; [exact Hrun|]. split; [reflexivity|].
  intros r t ms Hin Hms.
  apply worker_of_run in Hin as (i & region & image & perms & Hw).
  apply ImageClonerFacts.worker_waits in Hw.
  rewrite Forall_forall in Hw. destruct (Hw _ Hms) as [E|E]; [|by destruct (E ms)].
  unfold Spec.poll_timeout in E. injection E as ->. rewrite Hint.
  by destruct (progressCheckIntervalInSeconds c).
Qed.

Lemma configuration_defaults_in_place_witness :
  exists h1 c1 run,
    Index.cloneImage (Examples.heap_with Examples.without_interval) 0
      Examples.all_succeed [0%nat] = Some (h1, run)
    /\ new (Examples.heap_with Examples.without_interval) 0 = (h1, {| config := 0%nat |})
    /\ h1 !! 0%nat = Some c1
    /\ sourceImageId c1 = "ami-1"
    /\ sourceRegion c1 = "us-east-1"
    /\ destinationRegions c1 = ["eu-west-1"]
    /\ clientOptions c1 = None
    /\ progressCheckIntervalInSeconds c1 = Some 30
    /\ (forall l', l' <> 0%nat ->
          h1 !! l' = Examples.heap_with Examples.without_interval !! l')
    /\ (@None Z <> None -> h1 = Examples.heap_with Examples.without_interval)
    /\ cloneImage h1 {| config := 0%nat |} Examples.all_succeed [0%nat] = Some (h1, run)
    /\ run = cloneImage_with Examples.all_succeed c1 [0%nat]
    /\ (forall r t ms,
          (r, t) ∈ worker_runs run -> EvSetTimeout ms ∈ t -> ms = Some 30000).
Proof.
  refine (configuration_defaults_in_place
            (Examples.heap_with Examples.without_interval) 0
            Examples.without_interval Examples.all_succeed [0%nat] _).
  reflexivity.
Defined.

End ConfigurationFacts.


(* ===================================================================== *)
(** * Further properties                                                  *)
(* ===================================================================== *)

(** ** The bounded retry of the client wrapper *)

Module RetryFacts.
Import Spec Attempts.

Lemma count_app p (a b : list Event) : count p (a ++ b) = (count p a + count p b)%nat.
Proof. unfold count. by rewrite List.filter_app, length_app. Qed.

(** A retried call is attempted until it succeeds, [more + 1] times at
    most; the answers are those of consecutive calls. *)
Lemma retry_from_attempts {A} (p : Event -> bool) (call : Event)
    (f : nat -> Result A) (task : M (Result A)) wait more :
  p call = true -> p (EvRetryWait wait) = false ->
  (forall t, task t = (f (count p t), t ++ [call])) ->
  forall t, exists k,
    (k <= more)%nat
    /\ (forall j, (j < k)%nat -> exists e, f (count p t + j)%nat = Err e)
    /\ ((exists a, f (count p t + k)%nat = Ok a) \/ k = more)
    /\ Ec2.retry_from more wait task t
       = (f (count p t + k)%nat,
          t ++ call :: concat (replicate k [EvRetryWait wait; call])).
Proof.
  intros Hcall Hwait Htask. induction more as [|more IH]; intros t.
  - exists 0%nat. rewrite Nat.add_0_r. repeat split; auto; [lia|].
    cbn. unfold bind. rewrite Htask. by destruct (f (count p t)).
  - destruct (f (count p t)) as [e|a] eqn:Ef.
    + destruct (IH ((t ++ [call]) ++ [EvRetryWait wait])) as (k & Hk & Hbefore & Hend & E).
      assert (Hc : count p ((t ++ [call]) ++ [EvRetryWait wait]) = S (count p t)).
      { rewrite !count_app. unfold count at 2 3. cbn. rewrite Hcall, Hwait. cbn. lia. }
      rewrite Hc in *. exists (S k).
      replace (count p t + S k)%nat with (S (count p t) + k)%nat by lia.
      split; [lia|]. split; [|split].
      * intros [|j] Hj; [rewrite Nat.add_0_r; eauto|].
        replace (count p t + S j)%nat with (S (count p t) + j)%nat by lia.
        apply Hbefore. lia.
      * destruct Hend as [?| ->]; auto.
      * cbn [Ec2.retry_from]. unfold bind at 1. rewrite Htask, Ef.
        unfold bind, emit. rewrite E. f_equal. cbn. by rewrite <- !app_assoc.
    + exists 0%nat. rewrite Nat.add_0_r. split; [lia|]. split; [intros j Hj; lia|].
      split; [eauto|]. cbn [Ec2.retry_from]. unfold bind at 1. by rewrite Htask, Ef.
Qed.

Section Client.
Variable R : Remote.

(** X1. [copyImage] asks the service until a copy is accepted, three
    times at most, waiting the retry interval between two attempts and
    never after the last; it yields the identifier of the first accepted
    copy, or, after three refusals, the third error, wrapped. *)
Theorem copyImage_attempts imageId name description sourceRegion destinationRegion t :
  let call :=
    EvCopyImage destinationRegion
      {| cp_Name := name; cp_SourceImageId := imageId;
         cp_SourceRegion := sourceRegion; cp_Description := description |} in
  let n := count is_copyImage t in
  exists k,
    (k < 3)%nat
    /\ (forall j, (j < k)%nat -> exists e, on_copyImage R (n + j)%nat = Err e)
    /\ Ec2.copyImage R imageId name description sourceRegion destinationRegion t
       = (match on_copyImage R (n + k)%nat with
          | Ok newImageId => Ok newImageId
          | Err e => Err (CallFailed "copyImage" e)
          end,
          t ++ tries call k)
    /\ ((exists newImageId, on_copyImage R (n + k)%nat = Ok newImageId) \/ k = 2%nat).
Proof.
  intros call n.
  destruct (retry_from_attempts is_copyImage call
              (fun i => match on_copyImage R i with
                        | Ok newImageId => Ok newImageId
                        | Err e => Err (CallFailed "copyImage" e)
                        end)
              (r <~ Ec2.client_copyImage R destinationRegion
                      {| cp_Name := name; cp_SourceImageId := imageId;
                         cp_SourceRegion := sourceRegion;
                         cp_Description := description |} ;;
               match r with
               | Err error => ret (Err (CallFailed "copyImage" error))
               | Ok newImageId => ret (Ok newImageId)
               end)
              100 2 eq_refl eq_refl) with (t := t) as (k & Hk & Hbefore & Hend & E).
  { intros t'. cbv [Ec2.client_copyImage bind calls_so_far emit ret count].
    by destruct (on_copyImage R _). }
  exists k. fold n in Hbefore, Hend, E. split; [lia|]. split; [|split].
  - intros j Hj. destruct (Hbefore j Hj) as [e He].
    destruct (on_copyImage R (n + j)) as [e'|]; [eauto|done].
  - exact E.
  - destruct Hend as [[a Ha]|Hend]; [|by right].
    left. destruct (on_copyImage R (n + k)); [done|eauto].
Qed.

(** X2. [describeImage] retries only failed calls: an answer without
    images is a successful call, it is not asked again and becomes the
    "no image found" error; of several images the first is returned; after
    three failed calls the third error is handed on, wrapped. *)
Theorem describeImage_attempts imageId region t :
  let n := count is_describeImages t in
  exists k,
    (k < 3)%nat
    /\ (forall j, (j < k)%nat -> exists e, on_describeImages R (n + j)%nat = Err e)
    /\ Ec2.describeImage R imageId region t
       = (match on_describeImages R (n + k)%nat with
          | Err e => Err (CallFailed "describeImages" e)
          | Ok [] => Err (NoImageFound imageId)
          | Ok (image :: _) => Ok image
          end,
          t ++ tries (EvDescribeImages region [imageId]) k)
    /\ ((exists images, on_describeImages R (n + k)%nat = Ok images) \/ k = 2%nat).
Proof.
  intros n.
  destruct (retry_from_attempts is_describeImages (EvDescribeImages region [imageId])
              (on_describeImages R)
              (Ec2.client_describeImages R region [imageId])
              100 2 eq_refl eq_refl) with (t := t) as (k & Hk & Hbefore & Hend & E).
  { intros t'. reflexivity. }
  exists k. fold n in Hbefore, Hend, E. split; [lia|]. split; [exact Hbefore|].
  split; [|exact Hend].
  unfold Ec2.describeImage, bind. unfold Ec2.retry. cbn [Ec2.times Ec2.interval
    Ec2.retryConfig Nat.pred]. rewrite E.
  by destruct (on_describeImages R (n + k)) as [e|[|image images]].
Qed.

(** X3. [describeImageAttribute] asks the service first and looks at the
    attribute name afterwards: even for an attribute it does not support
    the call is made (and retried). For 'launchPermission' the grants of
    the answer are yielded; for a name inherited from [Object.prototype]
    the result is a success without data; for any other name it is the
    "unsupported attribute" error. *)
Theorem describeImageAttribute_attempts imageId region attribute t :
  let n := count is_describeImageAttribute t in
  exists k,
    (k < 3)%nat
    /\ (forall j, (j < k)%nat ->
          exists e, on_describeImageAttribute R (n + j)%nat = Err e)
    /\ Ec2.describeImageAttribute R imageId region attribute t
       = (match on_describeImageAttribute R (n + k)%nat with
          | Err e => Err (CallFailed "describeImageAttribute" e)
          | Ok data =>
              if String.eqb attribute "launchPermission"
              then Ok (Some (ia_LaunchPermissions data))
              else if Js.inherited attribute
                   then Ok None
                   else Err (UnsupportedAttribute "describeImageAttribute" attribute)
          end,
          t ++ tries (EvDescribeImageAttribute region attribute imageId) k)
    /\ ((exists data, on_describeImageAttribute R (n + k)%nat = Ok data) \/ k = 2%nat).
Proof.
  intros n.
  destruct (retry_from_attempts is_describeImageAttribute
              (EvDescribeImageAttribute region attribute imageId)
              (on_describeImageAttribute R)
              (Ec2.client_describeImageAttribute R region attribute imageId)
              100 2 eq_refl eq_refl) with (t := t) as (k & Hk & Hbefore & Hend & E).
  { intros t'. reflexivity. }
  exists k. fold n in Hbefore, Hend, E. split; [lia|]. split; [exact Hbefore|].
  split; [|exact Hend].
  unfold Ec2.describeImageAttribute, bind. unfold Ec2.retry. cbn [Ec2.times Ec2.interval
    Ec2.retryConfig Nat.pred]. rewrite E.
  destruct (on_describeImageAttribute R (n + k)) as [e|data]; [done|].
  unfold Js.get, Constants.describeImageAttributesProperty, Js.own.
  rewrite (String.eqb_sym "launchPermission" attribute).
  destruct (String.eqb attribute "launchPermission"); [done|].
  by destruct (Js.inherited attribute).
Qed.

(** X4. [tagImage] hands the tags to [createTags] as they are, for the
    one image, three times at most; it succeeds with the first accepted
    call and otherwise fails with the third error, wrapped. *)
Theorem tagImage_attempts imageId region tags t :
  let n := count is_createTags t in
  exists k,
    (k < 3)%nat
    /\ (forall j, (j < k)%nat -> exists e, on_createTags R (n + j)%nat = Err e)
    /\ Ec2.tagImage R imageId region tags t
       = (match on_createTags R (n + k)%nat with
          | Err e => Err (CallFailed "createTags" e)
          | Ok _ => Ok tt
          end,
          t ++ tries (EvCreateTags region [imageId] tags) k)
    /\ (on_createTags R (n + k)%nat = Ok tt \/ k = 2%nat).
Proof.
  intros n.
  destruct (retry_from_attempts is_createTags (EvCreateTags region [imageId] tags)
              (fun i => match on_createTags R i with
                        | Err e => Err (CallFailed "createTags" e)
                        | Ok _ => Ok tt
                        end)
              (r <~ Ec2.client_createTags R region [imageId] tags ;;
               match r with
               | Err error => ret (Err (CallFailed "createTags" error))
               | Ok _ => ret (Ok tt)
               end)
              100 2 eq_refl eq_refl) with (t := t) as (k & Hk & Hbefore & Hend & E).
  { intros t'. cbv [Ec2.client_createTags bind calls_so_far emit ret count].
    by destruct (on_createTags R _). }
  exists k. fold n in Hbefore, Hend, E. split; [lia|]. split; [|split].
  - intros j Hj. destruct (Hbefore j Hj) as [e He].
    destruct (on_createTags R (n + j)) as [e'|]; [eauto|done].
  - exact E.
  - destruct Hend as [[a Ha]|Hend]; [|by right].
    left. by destruct (on_createTags R (n + k)) as [|[]].
Qed.

(** X5. With 'launchPermission', [modifyImageAttribute] sends the value
    it was given, unchanged, under the key 'LaunchPermission', three
    times at most; it succeeds with the first accepted call and otherwise
    fails with the third error, wrapped. *)
Theorem modifyImageAttribute_attempts imageId region value t :
  let call :=
    EvModifyImageAttribute region
      {| mp_Attribute := "launchPermission"; mp_ImageId := imageId;
         mp_property := Js.VString "LaunchPermission"; mp_value := value |} in
  let n := count is_modifyImageAttribute t in
  exists k,
    (k < 3)%nat
    /\ (forall j, (j < k)%nat -> exists e, on_modifyImageAttribute R (n + j)%nat = Err e)
    /\ Ec2.modifyImageAttribute R imageId region "launchPermission" value t
       = (match on_modifyImageAttribute R (n + k)%nat with
          | Err e => Err (CallFailed "modifyImageAttribute" e)
          | Ok _ => Ok tt
          end,
          t ++ tries call k)
    /\ (on_modifyImageAttribute R (n + k)%nat = Ok tt \/ k = 2%nat).
Proof.
  intros call n.
  destruct (retry_from_attempts is_modifyImageAttribute call
              (on_modifyImageAttribute R)
              (Ec2.client_modifyImageAttribute R region
                 {| mp_Attribute := "launchPermission"; mp_ImageId := imageId;
                    mp_property := Js.VString "LaunchPermission"; mp_value := value |})
              100 2 eq_refl eq_refl) with (t := t) as (k & Hk & Hbefore & Hend & E).
  { intros t'. reflexivity. }
  exists k. fold n in Hbefore, Hend, E. split; [lia|]. split; [exact Hbefore|].
  split.
  - unfold Ec2.modifyImageAttribute. cbn -[Ec2.retry]. unfold bind, Ec2.retry.
    cbn [Ec2.times Ec2.interval Ec2.retryConfig Nat.pred]. rewrite E.
    by destruct (on_modifyImageAttribute R (n + k)) as [e|[]].
  - destruct Hend as [[[] Ha]|Hend]; auto.
Qed.

End Client.
End RetryFacts.

(** ** The image search and the client options *)

Module SearchFacts.
Import Attempts FindImages.




Lemma own_assign d k v k' :
  Js.own (Ec2Client.assign d k v) k' = if String.eqb k k' then Some v else Js.own d k'.
Proof.
  induction d as [|[k1 v1] d IH]; cbn; [done|].
  destruct (String.eqb_spec k1 k) as [->|Hne]; cbn.
  - by destruct (String.eqb k k').
  - rewrite IH. destruct (String.eqb_spec k1 k') as [->|Hne'].
    + destruct (String.eqb_spec k k'); [congruence|done].
    + done.
Qed.

Lemma own_absent (l : list (string * string)) k :
  k ∉ fst <$> l -> Js.own l k = None.
Proof.
  induction l as [|[k1 v1] l IH]; cbn; [done|]. intros Hk.
  apply not_elem_of_cons in Hk as [Hne Hk].
  destruct (String.eqb_spec k1 k); [congruence|auto].
Qed.

Lemma own_extend d options k :
  NoDup (fst <$> options) ->
  Js.own (Ec2Client.extend d options) k
  = match Js.own options k with
    | Some v => Some v
    | None => Js.own d k
    end.
Proof.
  revert d. induction options as [|[k1 v1] options IH]; intros d Hnd; cbn; [done|].
  apply NoDup_cons in Hnd as [Hk1 Hnd].
  unfold Ec2Client.extend in *. cbn [fold_left fst snd]. rewrite IH by done.
  rewrite own_assign. destruct (String.eqb_spec k1 k) as [->|Hne]; [|done].
  by rewrite own_absent.
Qed.

(** X7. The client [getClient] builds is always bound to the region it is
    asked for: the region is set after the configured client options, so
    a 'region' among them is overridden; every other configured option is
    passed on unchanged, and without client options the region is the
    only option. *)
Theorem getClient_region config region :
  Js.own (Ec2Client.getClient config region) "region" = Some region
  /\ (clientOptions config = None ->
      Ec2Client.getClient config region = [("region", region)])
  /\ (forall options k,
        clientOptions config = Some options -> NoDup (fst <$> options) ->
        k <> "region" ->
        Js.own (Ec2Client.getClient config region) k = Js.own options k).
Proof.
  unfold Ec2Client.getClient. split; [|split].
  - destruct (clientOptions config) as [options|]; [|done].
    unfold Ec2Client.extend at 1. cbn [fold_left fst snd]. by rewrite own_assign.
  - by intros ->.
  - intros options k -> Hnd Hk.
    unfold Ec2Client.extend at 1. cbn [fold_left fst snd]. rewrite own_assign.
    destruct (String.eqb_spec "region" k); [congruence|].
    rewrite own_extend by done. by destruct (Js.own options k).
Qed.

Lemma getClient_region_witness :
  Js.own (Ec2Client.getClient MoreExamples.with_client_options "eu-west-1") "maxRetries"
  = Js.own [("maxRetries", "2"); ("region", "ap-south-1")] "maxRetries".
Proof.
  apply (proj2 (proj2 (getClient_region MoreExamples.with_client_options "eu-west-1"))).
  - reflexivity.
  - cbn. repeat constructor; set_solver.
  - discriminate.
Defined.

End SearchFacts.



(** ** Validation and construction *)

Module ValidationFacts.
Import ConfigValidator.

(** X9. Constructing a cloner changes nothing but the configuration
    object it is given, and of that object nothing but an absent
    [progressCheckIntervalInSeconds], which becomes 30; a value that is
    given, zero or negative included, is kept, so that it is the
    validator that judges it. Constructing a second cloner on the same
    object changes nothing any more. *)
Theorem construction_fills_interval_once (h : gmap nat Config) l c :
  h !! l = Some c ->
  let h1 := fst (ImageCloner.new h l) in
  (exists c1,
      h1 !! l = Some c1
      /\ sourceImageId c1 = sourceImageId c
      /\ sourceRegion c1 = sourceRegion c
      /\ destinationRegions c1 = destinationRegions c
      /\ clientOptions c1 = clientOptions c
      /\ progressCheckIntervalInSeconds c1
         = match progressCheckIntervalInSeconds c with
           | Some n => Some n
           | None => Some 30
           end)
  /\ (forall l', l' <> l -> h1 !! l' = h !! l')
  /\ fst (ImageCloner.new h1 l) = h1.
Proof.
  intros Hl h1. subst h1. unfold ImageCloner.new, ImageCloner.fillConfigurationDefaults.
  cbn [fst]. split; [|split].
  - exists (ImageCloner.defaults c). rewrite lookup_alter_eq, Hl. split; [done|].
    unfold ImageCloner.defaults.
    destruct (progressCheckIntervalInSeconds c) eqn:E; cbn; rewrite ?E; repeat split.
  - intros l' Hne. by rewrite lookup_alter_ne.
  - apply map_eq. intros k. destruct (decide (l = k)) as [<-|Hne].
    + rewrite !lookup_alter_eq, Hl. cbn. f_equal.
      unfold ImageCloner.defaults.
      by destruct (progressCheckIntervalInSeconds c) eqn:E; cbn; rewrite ?E.
    + by rewrite !lookup_alter_ne.
Qed.

Lemma construction_fills_interval_once_witness :
  fst (ImageCloner.new
         (fst (ImageCloner.new (Examples.heap_with Examples.without_interval) 0)) 0)
  = fst (ImageCloner.new (Examples.heap_with Examples.without_interval) 0).
Proof.
  refine (proj2 (proj2 (construction_fills_interval_once
                          (Examples.heap_with Examples.without_interval) 0
                          Examples.without_interval _))).
  reflexivity.
Defined.

End ValidationFacts.

(** ** Runs that stop early, and runs over a single region *)

Module OrchestrationFacts.
Import Spec Attempts Invariant ImageCloner ReportFacts.

(** X10. When the lookup of the source image fails, the run ends there:
    the callback receives that error and a report of placeholders; apart
    from the [describeImages] attempts on the source region nothing is
    asked of the service, in particular not the launch permissions, and
    no worker is started. *)
Theorem image_lookup_failure_stops env cfg schedule e t :
  ConfigValidator.validate cfg = [] ->
  Ec2.describeImage (source_remote env) (sourceImageId cfg) (sourceRegion cfg) []
  = (Err e, t) ->
  let run := cloneImage_with env cfg schedule in
  notices run = [CallbackInvoked (Some e) (report run)]
  /\ source_trace run = t
  /\ Forall (describe_phase (sourceImageId cfg) (sourceRegion cfg)) t
  /\ worker_runs run = []
  /\ (forall region, region ∈ destinationRegions cfg ->
        report run !! region = Some not_attempted).
Proof.
  intros Hv He run. subst run.
  destruct (CloneImageFacts.source_image_lookup_failure env cfg schedule e t Hv He)
    as [-> HF].
  cbn. repeat split; auto. apply initial_results_elem.
Qed.

Lemma image_lookup_failure_stops_witness :
  worker_runs (cloneImage_with MoreExamples.source_unavailable Examples.two_regions
                 [0; 1]%nat) = [].
Proof.
  refine (proj1 (proj2 (proj2 (proj2
            (image_lookup_failure_stops MoreExamples.source_unavailable
               Examples.two_regions [0; 1]%nat
               (CallFailed "describeImages" (RemoteError "throttled"))
               _ _ _))))).
  - reflexivity.
  - reflexivity.
Defined.

(** X11. When the source image is found but the lookup of its launch
    permissions fails, the run ends there as well: the callback receives
    that error and a report of placeholders, and no worker is started. *)
Theorem permissions_lookup_failure_stops env cfg schedule image t1 e t2 :
  ConfigValidator.validate cfg = [] ->
  Ec2.describeImage (source_remote env) (sourceImageId cfg) (sourceRegion cfg) []
  = (Ok image, t1) ->
  Ec2.describeImageAttribute (source_remote env) (sourceImageId cfg) (sourceRegion cfg)
    Constants.LAUNCH_PERMISSION t1 = (Err e, t2) ->
  let run := cloneImage_with env cfg schedule in
  notices run = [CallbackInvoked (Some e) (report run)]
  /\ source_trace run = t2
  /\ worker_runs run = []
  /\ (forall region, region ∈ destinationRegions cfg ->
        report run !! region = Some not_attempted).
Proof.
  intros Hv Hi He run. subst run.
  rewrite (CloneImageFacts.source_permissions_lookup_failure env cfg schedule
             image t1 e t2 Hv Hi He).
  cbn. repeat split; auto. apply initial_results_elem.
Qed.

Lemma permissions_lookup_failure_stops_witness :
  notices (cloneImage_with MoreExamples.permissions_unavailable Examples.two_regions
             [0; 1]%nat)
  = [CallbackInvoked
       (Some (CallFailed "describeImageAttribute" (RemoteError "denied")))
       (report (cloneImage_with MoreExamples.permissions_unavailable
                  Examples.two_regions [0; 1]%nat))].
Proof.
  refine (proj1 (permissions_lookup_failure_stops MoreExamples.permissions_unavailable
                   Examples.two_regions [0; 1]%nat
                   (Examples.image "ami-1" (Some "pending")) _
                   (CallFailed "describeImageAttribute" (RemoteError "denied")) _
                   _ _ _)).
  - reflexivity.
  - reflexivity.
  - reflexivity.
Defined.

(** A schedule entry that names a worker which has reported, or no
    worker at all, changes nothing. *)
Lemma deliver_skips regions outcomes s i :
  i ∈ finished s \/ regions !! i = None -> deliver regions outcomes s i = s.
Proof.
  intros [Hin|Hnone]; unfold deliver.
  - apply finished_elem in Hin. by rewrite Hin.
  - rewrite Hnone. by destruct (existsb _ _).
Qed.

Lemma run_skips regions outcomes schedule s :
  (forall i, i ∈ schedule -> i ∈ finished s \/ regions !! i = None) ->
  foldl (deliver regions outcomes) s schedule = s.
Proof.
  induction schedule as [|i schedule IH]; intros Hall; cbn; [done|].
  rewrite deliver_skips by (apply Hall; set_solver).
  apply IH. intros j Hj. apply Hall. set_solver.
Qed.

(** X12. With a single destination region the operation does what its
    documentation says: once the worker has reported, the callback is
    invoked exactly once, with the worker's error if it failed and
    without error if it succeeded, and the report holds the worker's
    outcome for the region. *)
Theorem one_region_operation env cfg region r tr rest :
  destinationRegions cfg = [region] ->
  let run := cloneImage_with env cfg (0%nat :: rest) in
  worker_runs run = [(Some r, tr)] ->
  notices run
  = [ WorkerStarted 0 region;
      WorkerFinished 0 r;
      CallbackInvoked (error_of r) {[ region := outcome_of r ]} ]
  /\ report run = {[ region := outcome_of r ]}.
Proof.
  intros Hregions run Hruns. subst run.
  destruct (CloneImageFacts.cloneImage_with_cases env cfg (0%nat :: rest))
    as [(err & t & E)|(image & perms & t & _ & E)]; rewrite E in *;
    cbn [report notices worker_runs stopped] in *; [done|]. clear E.
  revert Hruns. unfold cloneImageToRegions. cbn [fst snd]. rewrite Hregions.
  cbn [imap length Nat.eqb]. intros Hruns. rewrite Hruns. cbn [fmap list_fmap fst foldl].
  assert (Hinit : initial_results [region] = {[ region := not_attempted ]}).
  { unfold initial_results, keyBy. cbn [foldl]. rewrite insert_empty.
    by rewrite map_fmap_singleton. }
  rewrite Hinit.
  set (s0 := {| results := {[ region := not_attempted ]};
                firstCloneImageError := None;
                each_outstanding := 1;
                series_called := false;
                finished := [];
                log := [WorkerStarted 0 region] |}).
  assert (Hfirst : deliver [region] [Some r] s0 0%nat
                   = {| results := {[ region := outcome_of r ]};
                        firstCloneImageError := error_of r;
                        each_outstanding := match r with Err _ => 0 | Ok _ => 1 end;
                        series_called := true;
                        finished := [0%nat];
                        log := [ WorkerStarted 0 region;
                                 WorkerFinished 0 r;
                                 CallbackInvoked (error_of r)
                                   {[ region := outcome_of r ]} ] |}).
  { unfold deliver, s0. cbn [existsb finished lookup list_lookup].
    destruct r as [e|id]; cbn -[insert singletonM].
    - rewrite lookup_singleton_eq. unfold set_error. cbn -[insert singletonM].
      rewrite lookup_singleton_eq. unfold innerAsyncCallback, asyncCallback.
      cbn -[insert singletonM]. by rewrite insert_singleton_eq.
    - unfold asyncCallback, set_success. cbn -[insert singletonM].
      by rewrite insert_singleton_eq. }
  rewrite Hfirst, run_skips; [done|].
  intros i _. destruct i as [|i]; [left; cbn; set_solver | by right].
Qed.

Lemma one_region_operation_witness :
  report (cloneImage_with Examples.all_succeed Examples.one_region [0]%nat)
  = {[ "eu-west-1" := outcome_of (Ok "ami-2") ]}.
Proof.
  refine (proj2 (one_region_operation Examples.all_succeed Examples.one_region
                   "eu-west-1" (Ok "ami-2") _ [] _ _)).
  - reflexivity.
  - vm_compute. reflexivity.
Defined.

End OrchestrationFacts.

(** ** How the fan-out ends *)

Module StageFacts.
Import Spec Attempts Invariant ImageCloner ReportFacts.

Lemma succeeded_snoc l n :
  succeeded (l ++ [n]) <-> succeeded l \/ exists i id, n = WorkerFinished i (Ok id).
Proof.
  unfold succeeded. split.
  - intros (i & id & Hin). apply elem_of_app in Hin as [Hin|Hin]; [left; eauto|].
    apply list_elem_of_singleton in Hin. right. eauto.
  - intros [(i & id & Hin)|(i & id & ->)]; exists i, id; set_solver.
Qed.

(** Distinct worker numbers below [n] are at most [n]. *)
Lemma distinct_below (l : list nat) n :
  NoDup l -> (forall i, i ∈ l -> (i < n)%nat) -> (length l <= n)%nat.
Proof.
  intros Hnd Hlt.
  transitivity (length (seq 0 n)); [|by rewrite length_seq].
  apply submseteq_length.
  apply NoDup_submseteq; [done|]. intros i Hi. apply elem_of_seq. split; [lia|].
  cbn. by apply Hlt.
Qed.

Section Stage.
Variable regions : list string.
Variable outcomes : list (option (Result string)).

Lemma stage_deliver s i :
  consistent regions outcomes s -> NoDup (finished s) ->
  stage (length regions) s ->
  NoDup (finished (deliver regions outcomes s i))
  /\ stage (length regions) (deliver regions outcomes s i).
Proof.
  intros Hs Hnd Hst.
  destruct (decide (i ∈ finished s)) as [Hin|Hnin].
  { rewrite OrchestrationFacts.deliver_skips by (by left). done. }
  destruct (regions !! i) as [region|] eqn:Er; cycle 1.
  { unfold deliver. rewrite Er. by destruct (existsb _ _). }
  destruct (outcomes !! i) as [[r|]|] eqn:Eo; cycle 1.
  { unfold deliver. rewrite Er, Eo. by destruct (existsb _ _). }
  { unfold deliver. rewrite Er, Eo. by destruct (existsb _ _). }
  assert (Hroom : (length (finished s) < length regions)%nat).
  { assert (Hle : (length (i :: finished s) <= length regions)%nat).
    { apply distinct_below; [by constructor|].
      intros j Hj. apply elem_of_cons in Hj as [->|Hj].
      - by eapply lookup_lt_Some.
      - destruct (finished_ran _ _ _ Hs j Hj) as (rg & _ & Hrg & _).
        by eapply lookup_lt_Some. }
    cbn in Hle. lia. }
  assert (Hkey : is_Some (results s !! region)).
  { apply elem_of_dom. rewrite (keys_fixed _ _ _ Hs). apply elem_of_list_to_set.
    by eapply list_elem_of_lookup_2. }
  destruct Hkey as [o0 Ho0].
  rewrite (deliver_reports regions outcomes s i region r) by done.
  destruct (written_reporting s i region r o0 Ho0)
    as (Hres & Hfin & Hlog & Hout & Hser & Hfirst).
  assert (Hcb : callbacks (log (written region r (reporting i r s)))
                = callbacks (log s)).
  { rewrite Hlog, callbacks_app. cbn. by rewrite app_nil_r. }
  assert (Hsucc : succeeded (log (written region r (reporting i r s)))
                  <-> succeeded (log s) \/ exists id, r = Ok id).
  { rewrite Hlog, succeeded_snoc. split; intros [H|H]; auto.
    - destruct H as (? & id & [= _ ->]). eauto.
    - destruct H as [id ->]. eauto. }
  assert (Hw : worker_callback region r (reporting i r s)
               = match r with
                 | Err _ => innerAsyncCallback (written region r (reporting i r s))
                 | Ok _ => asyncCallback None (written region r (reporting i r s))
                 end).
  { destruct r; [|done]. unfold worker_callback.
    change (results (remember_first e (reporting i (Err e) s))) with (results s).
    by rewrite Ho0. }
  rewrite Hw. clear Hw.
  remember (written region r (reporting i r s)) as w eqn:Ew in *. clear Ew.
  assert (Hndw : NoDup (finished s ++ [i])).
  { apply NoDup_app. repeat split; auto.
    - intros j Hj Hj'. apply list_elem_of_singleton in Hj' as ->. done.
    - apply NoDup_singleton. }
  destruct Hst as [Hc Hq Hns Hge Hsum | Hc (rep & Hq) | Hc (err & rep & Hq) Hns Hall].
  - (* nothing has called back yet *)
    destruct r as [e|id].
    + unfold innerAsyncCallback. cbn [each_outstanding firstCloneImageError].
      rewrite Hout.
      destruct (Nat.eqb_spec (Nat.pred (each_outstanding s)) 0) as [Hz|Hnz].
      * unfold asyncCallback. cbn [series_called]. rewrite Hser, Hc.
        cbn -[callbacks succeeded]. rewrite Hfin. split; [done|].
        apply ended_by_failures; cbn -[callbacks succeeded].
        -- done.
        -- eexists _, _. rewrite callbacks_app, Hcb, Hq. reflexivity.
        -- rewrite succeeded_snoc, Hsucc. intros [[H|[id H]]|(? & ? & H)]; done.
        -- rewrite length_app. cbn. lia.
      * cbn -[callbacks succeeded]. rewrite Hfin. split; [done|].
        apply waiting; cbn -[callbacks succeeded].
        -- by rewrite Hser.
        -- by rewrite Hcb.
        -- rewrite Hsucc. intros [H|[id H]]; done.
        -- lia.
        -- rewrite length_app. cbn. lia.
    + unfold asyncCallback. rewrite Hser, Hc. cbn -[callbacks succeeded].
      rewrite Hfin.
      split; [done|]. apply ended_by_success; cbn -[callbacks succeeded]; [done|].
      eexists. rewrite callbacks_app, Hcb, Hq. reflexivity.
  - (* a success has ended the series *)
    assert (Hthrown : forall err w',
               series_called w' = true -> finished w' = finished s ++ [i] ->
               callbacks (log w') = [(None, rep)] ->
               NoDup (finished (asyncCallback err w'))
               /\ stage (length regions) (asyncCallback err w')).
    { intros err w' Hc' Hf' Hq'. unfold asyncCallback, note. rewrite Hc'.
      cbn -[callbacks succeeded]. rewrite Hf'. split; [done|].
      apply ended_by_success; cbn -[callbacks succeeded]; [done|].
      exists rep. rewrite callbacks_app, Hq'. reflexivity. }
    destruct r as [e|id].
    + unfold innerAsyncCallback. cbn [each_outstanding firstCloneImageError].
      destruct (Nat.eqb _ 0).
      * apply Hthrown; cbn -[callbacks succeeded]; [by rewrite Hser|done|by rewrite Hcb].
      * cbn -[callbacks succeeded]. rewrite Hfin. split; [done|].
        apply ended_by_success; cbn -[callbacks succeeded]; [by rewrite Hser|].
        exists rep. by rewrite Hcb.
    + apply Hthrown; [by rewrite Hser|done|by rewrite Hcb].
  - (* every worker has reported already *)
    lia.
Qed.

Lemma stage_run schedule :
  forall s,
    consistent regions outcomes s -> NoDup (finished s) ->
    stage (length regions) s ->
    stage (length regions) (foldl (deliver regions outcomes) s schedule).
Proof.
  induction schedule as [|i schedule IH]; intros s Hs Hnd Hst; cbn; [done|].
  destruct (stage_deliver s i Hs Hnd Hst) as [Hnd' Hst'].
  apply IH; auto. by apply consistent_deliver.
Qed.

End Stage.

(** The stage a run through the fan-out ends in. *)
Lemma fanout_stage env cfg image perms schedule :
  let fan := cloneImageToRegions env cfg (initial_results (destinationRegions cfg))
               image perms schedule in
  stage (length (destinationRegions cfg)) (fst fan).
Proof.
  intros fan. subst fan. unfold cloneImageToRegions. cbn [fst snd].
  destruct (Nat.eqb_spec (length (destinationRegions cfg)) 0) as [Hz|Hnz].
  - apply stage_run.
    + eapply consistent_callbacks_only; [|apply asyncCallback_callbacks_only].
      apply consistent_start.
    + cbn. constructor.
    + apply ended_by_success; cbn; [done|].
      eexists. rewrite callbacks_app, callbacks_imap by done. reflexivity.
  - apply stage_run.
    + apply consistent_start.
    + cbn. constructor.
    + apply waiting; cbn; [done|by apply callbacks_imap| |lia|lia].
      intros (i & id & Hin). apply started_only in Hin as (? & ? & ?). done.
Qed.

(** X13. The top-level callback is never invoked twice (async refuses a
    second use of the task callback), and once every worker has reported
    it has been invoked exactly once. *)
Theorem callback_at_most_once env cfg schedule :
  let run := cloneImage_with env cfg schedule in
  (length (callbacks (notices run)) <= 1)%nat
  /\ ((forall i, (i < length (destinationRegions cfg))%nat ->
         exists r, WorkerFinished i r ∈ notices run) ->
      length (callbacks (notices run)) = 1%nat).
Proof.
  intros run. subst run.
  destruct (CloneImageFacts.cloneImage_with_cases env cfg schedule)
    as [(err & t & ->)|(image & perms & t & _ & ->)]; cbn [notices stopped].
  { cbn. split; [lia|done]. }
  pose proof (fanout_stage env cfg image perms schedule) as Hst.
  pose proof (CloneImageFacts.fanout_consistent env cfg image perms schedule) as Hcons.
  cbn zeta in Hst, Hcons.
  destruct Hst as [Hc Hq Hns Hge Hsum | Hc (rep & Hq) | Hc (err & rep & Hq) Hns Hall];
    rewrite Hq; cbn; try (split; [lia|done]).
  split; [lia|]. intros Hdone. exfalso.
  assert (Hle : (length (seq 0 (length (destinationRegions cfg)))
                 <= length (finished (fst (cloneImageToRegions env cfg
                      (initial_results (destinationRegions cfg)) image perms schedule))))%nat).
  { apply submseteq_length, NoDup_submseteq; [apply NoDup_seq|].
    intros i Hi. apply elem_of_seq in Hi. destruct (Hdone i) as [r Hr]; [lia|].
    by destruct (log_finished _ _ _ Hcons i r Hr). }
  rewrite length_seq in Hle. lia.
Qed.

Lemma callback_at_most_once_witness :
  length (callbacks (notices (cloneImage_with Examples.all_succeed Examples.two_regions
                                [0; 1]%nat))) = 1%nat.
Proof.
  apply (proj2 (callback_at_most_once Examples.all_succeed Examples.two_regions
                  [0; 1]%nat)).
  intros i Hi. cbn in Hi.
  destruct i as [|[|i]]; [exists (Ok "ami-2") | exists (Ok "ami-3") | lia];
    vm_compute; set_solver.
Defined.

(** X14. As soon as one worker has reported success the operation is
    over for the caller: the callback has been invoked, without an error,
    whatever the other workers did before or do afterwards. *)
Theorem success_ends_without_error env cfg schedule i id :
  let run := cloneImage_with env cfg schedule in
  WorkerFinished i (Ok id) ∈ notices run ->
  exists rep, callbacks (notices run) = [(None, rep)].
Proof.
  intros run Hin. subst run.
  destruct (CloneImageFacts.cloneImage_with_cases env cfg schedule)
    as [(err & t & E)|(image & perms & t & _ & E)]; rewrite E in *;
    cbn [notices stopped] in *.
  { apply list_elem_of_singleton in Hin. done. }
  pose proof (fanout_stage env cfg image perms schedule) as Hst. cbn zeta in Hst.
  destruct Hst as [Hc Hq Hns Hge Hsum | Hc Hq | Hc Hq Hns Hall]; [|done|].
  - destruct Hns. by exists i, id.
  - destruct Hns. by exists i, id.
Qed.

Lemma success_ends_without_error_witness :
  exists rep,
    callbacks (notices (cloneImage_with Examples.first_fails Examples.two_regions
                          [0; 1]%nat)) = [(None, rep)].
Proof.
  apply (success_ends_without_error Examples.first_fails Examples.two_regions
           [0; 1]%nat 1%nat "ami-2").
  vm_compute. set_solver.
Defined.

End StageFacts.


(** ** Runs in which the service cooperates *)

Module ProgressFacts.
Import Spec Attempts ImageCloner.

Lemma polls_succ cfg imageId region n :
  polls cfg imageId region (S n)
  = [poll_timeout cfg; EvDescribeImages region [imageId]] ++ polls cfg imageId region n.
Proof. reflexivity. Qed.

Lemma count_polls p cfg imageId region n :
  p (poll_timeout cfg) = false -> p (EvDescribeImages region [imageId]) = false ->
  count p (polls cfg imageId region n) = 0%nat.
Proof.
  intros H1 H2. induction n as [|n IH].
  - unfold polls, count. cbn. by rewrite H1, H2.
  - rewrite polls_succ, RetryFacts.count_app, IH. unfold count. cbn. by rewrite H1, H2.
Qed.

Section Worker.
Variable R : Remote.
Variable cfg : Config.

(** A query answered at the first attempt. *)
Lemma describeImage_at_once imageId region t image rest :
  on_describeImages R (count is_describeImages t) = Ok (image :: rest) ->
  Ec2.describeImage R imageId region t
  = (Ok image, t ++ [EvDescribeImages region [imageId]]).
Proof.
  intros H. unfold Ec2.describeImage, Ec2.retry. cbn [Ec2.retry_from Ec2.times
    Ec2.retryConfig Nat.pred]. unfold bind at 1. unfold bind at 1.
  cbv [Ec2.client_describeImages bind calls_so_far emit ret]. fold (count is_describeImages t).
  by rewrite H.
Qed.

Lemma count_after_timeout t :
  count is_describeImages (t ++ [poll_timeout cfg]) = count is_describeImages t.
Proof. rewrite RetryFacts.count_app. unfold count at 2. cbn. lia. Qed.

Lemma count_after_query t imageId region :
  count is_describeImages ((t ++ [poll_timeout cfg]) ++ [EvDescribeImages region [imageId]])
  = S (count is_describeImages t).
Proof. rewrite RetryFacts.count_app, count_after_timeout. unfold count at 2. cbn. lia. Qed.

Lemma terminal_state s :
  s <> "" -> s <> "pending" -> copy_completed (Some s) = true.
Proof.
  intros H1 H2. unfold copy_completed, Js.truthy_string, is_pending.
  destruct (String.eqb_spec s ""); [done|].
  destruct (String.eqb_spec s "pending"); done.
Qed.

Lemma poll_run imageId region n :
  forall ticks t,
    (forall j, (j < n)%nat ->
       exists image rest,
         on_describeImages R (count is_describeImages t + j)%nat = Ok (image :: rest)
         /\ State image = Some "pending") ->
    (exists image rest s,
        on_describeImages R (count is_describeImages t + n)%nat = Ok (image :: rest)
        /\ State image = Some s /\ s <> "" /\ s <> "pending") ->
    (n < ticks)%nat ->
    awaitImageCopyCompletion R cfg ticks imageId region t
    = (Some (Ok tt), t ++ polls cfg imageId region n).
Proof.
  induction n as [|n IH]; intros [|ticks] t Hpending Hend Hticks; try lia.
  - destruct Hend as (image & rest & s & Hans & Hs & Hne & Hnp).
    rewrite Nat.add_0_r in Hans.
    rewrite ImageClonerFacts.poll_unfold.
    rewrite (describeImage_at_once imageId region _ image rest)
      by (by rewrite count_after_timeout).
    rewrite Hs, terminal_state by done. by rewrite <- app_assoc.
  - destruct (Hpending 0%nat) as (image & rest & Hans & Hs); [lia|].
    rewrite Nat.add_0_r in Hans.
    rewrite ImageClonerFacts.poll_unfold.
    rewrite (describeImage_at_once imageId region _ image rest)
      by (by rewrite count_after_timeout).
    rewrite Hs. cbn [copy_completed Js.truthy_string is_pending String.eqb Ascii.eqb
                     Bool.eqb andb negb].
    rewrite (IH ticks); [by rewrite polls_succ, <- !app_assoc| | |lia];
      rewrite count_after_query.
    + intros j Hj. destruct (Hpending (S j)) as (im & rs & Ha & Hst); [lia|].
      exists im, rs. split; [|done]. by rewrite Nat.add_succ_comm.
    + destruct Hend as (im & rs & s & Ha & Hst). exists im, rs, s.
      split; [|done]. by rewrite Nat.add_succ_comm.
Qed.

(** X15. When the service reports "pending" at the first [n] queries and
    a non-empty state other than "pending" at the next one, each query
    being answered at its first attempt, the poll ends with success at
    exactly that query, after [n + 1] waits of the configured interval;
    observed for [n] ticks or fewer it is still running. *)
Theorem poll_ends_at_first_terminal_state imageId region n ticks t :
  (forall j, (j < n)%nat ->
     exists image rest,
       on_describeImages R (count is_describeImages t + j)%nat = Ok (image :: rest)
       /\ State image = Some "pending") ->
  (exists image rest s,
      on_describeImages R (count is_describeImages t + n)%nat = Ok (image :: rest)
      /\ State image = Some s /\ s <> "" /\ s <> "pending") ->
  ((n < ticks)%nat ->
   awaitImageCopyCompletion R cfg ticks imageId region t
   = (Some (Ok tt), t ++ polls cfg imageId region n))
  /\ ((ticks <= n)%nat ->
      fst (awaitImageCopyCompletion R cfg ticks imageId region t) = None).
Proof.
  intros Hpending Hend. split; [by apply poll_run|]. clear Hend.
  revert n t Hpending. induction ticks as [|ticks IH]; intros n t Hpending Hle; [done|].
  destruct n as [|n]; [lia|].
  destruct (Hpending 0%nat) as (image & rest & Hans & Hs); [lia|].
  rewrite Nat.add_0_r in Hans.
  rewrite ImageClonerFacts.poll_unfold.
  rewrite (describeImage_at_once imageId region _ image rest)
    by (by rewrite count_after_timeout).
  rewrite Hs. cbn [copy_completed Js.truthy_string is_pending String.eqb Ascii.eqb
                   Bool.eqb andb negb].
  apply (IH n); [|lia]. rewrite count_after_query.
  intros j Hj. destruct (Hpending (S j)) as (im & rs & Ha & Hst); [lia|].
  exists im, rs. split; [|done]. by rewrite Nat.add_succ_comm.
Qed.

Lemma copyImage_at_once imageId name description sourceRegion destinationRegion t
    newImageId :
  on_copyImage R (count is_copyImage t) = Ok newImageId ->
  Ec2.copyImage R imageId name description sourceRegion destinationRegion t
  = (Ok newImageId,
     t ++ [EvCopyImage destinationRegion
             {| cp_Name := name; cp_SourceImageId := imageId;
                cp_SourceRegion := sourceRegion; cp_Description := description |}]).
Proof.
  intros H. unfold Ec2.copyImage, Ec2.retry.
  cbn [Ec2.retry_from Ec2.times Ec2.retryConfig Nat.pred].
  cbv [Ec2.client_copyImage bind calls_so_far emit ret]. fold (count is_copyImage t).
  by rewrite H.
Qed.

Lemma tagImage_at_once imageId region tags t :
  on_createTags R (count is_createTags t) = Ok tt ->
  Ec2.tagImage R imageId region tags t
  = (Ok tt, t ++ [EvCreateTags region [imageId] tags]).
Proof.
  intros H. unfold Ec2.tagImage, Ec2.retry.
  cbn [Ec2.retry_from Ec2.times Ec2.retryConfig Nat.pred].
  cbv [Ec2.client_createTags bind calls_so_far emit ret]. fold (count is_createTags t).
  by rewrite H.
Qed.

Lemma setLaunchPermissions_at_once imageId region value t :
  on_modifyImageAttribute R (count is_modifyImageAttribute t) = Ok tt ->
  Ec2.modifyImageAttribute R imageId region Constants.LAUNCH_PERMISSION value t
  = (Ok tt,
     t ++ [EvModifyImageAttribute region
             {| mp_Attribute := "launchPermission"; mp_ImageId := imageId;
                mp_property := Js.VString "LaunchPermission"; mp_value := value |}]).
Proof.
  intros H. unfold Ec2.modifyImageAttribute. cbn -[Ec2.retry]. unfold Ec2.retry.
  cbn [Ec2.retry_from Ec2.times Ec2.retryConfig Nat.pred].
  cbv [Ec2.client_modifyImageAttribute bind calls_so_far emit ret].
  fold (count is_modifyImageAttribute t). by rewrite H.
Qed.

(** X16. When the service accepts the copy, the tags and the permission
    change at the first attempt and the new image is seen "pending" [n]
    times before it reaches a final state, the worker yields the new
    image identifier after exactly one [copyImage] call, [n + 1] polls,
    one [createTags] call with the source image's tags and one
    [modifyImageAttribute] call that adds the source image's launch
    permissions, in this order. *)
Theorem clone_succeeds ticks image launchPermissions sourceRegion destinationRegion
    newImageId n :
  on_copyImage R 0 = Ok newImageId ->
  (forall j, (j < n)%nat ->
     exists answer rest,
       on_describeImages R j = Ok (answer :: rest) /\ State answer = Some "pending") ->
  (exists answer rest s,
      on_describeImages R n = Ok (answer :: rest)
      /\ State answer = Some s /\ s <> "" /\ s <> "pending") ->
  on_createTags R 0 = Ok tt ->
  on_modifyImageAttribute R 0 = Ok tt ->
  (n < ticks)%nat ->
  cloneImageToRegion R cfg ticks image launchPermissions sourceRegion destinationRegion []
  = (Some (Ok newImageId),
     [EvCopyImage destinationRegion
        {| cp_Name := Name image; cp_SourceImageId := ImageId image;
           cp_SourceRegion := sourceRegion; cp_Description := Description image |}]
     ++ polls cfg newImageId destinationRegion n
     ++ [EvCreateTags destinationRegion [newImageId] (Tags image);
         EvModifyImageAttribute destinationRegion
           {| mp_Attribute := "launchPermission"; mp_ImageId := newImageId;
              mp_property := Js.VString "LaunchPermission";
              mp_value := {| Add := launchPermissions; Remove := None |} |}]).
Proof.
  intros Hcopy Hpending Hend Htags Hmodify Hticks.
  unfold cloneImageToRegion. unfold bind at 1.
  rewrite (copyImage_at_once _ _ _ _ _ [] newImageId) by done.
  unfold bind at 1. cbn [app].
  set (c := EvCopyImage _ _).
  rewrite (poll_run newImageId destinationRegion n ticks [c]); [|done|done|done].
  unfold bind at 1.
  rewrite tagImage_at_once
    by (by rewrite RetryFacts.count_app, count_polls).
  unfold bind at 1.
  rewrite setLaunchPermissions_at_once
    by (by rewrite !RetryFacts.count_app, count_polls).
  unfold ret. by rewrite <- !app_assoc.
Qed.

End Worker.

Lemma poll_ends_at_first_terminal_state_witness :
  awaitImageCopyCompletion (Examples.healthy "ami-2") Examples.one_region 10
    "ami-2" "eu-west-1" []
  = (Some (Ok tt), [] ++ polls Examples.one_region "ami-2" "eu-west-1" 1).
Proof.
  refine (proj1 (poll_ends_at_first_terminal_state (Examples.healthy "ami-2")
                   Examples.one_region "ami-2" "eu-west-1" 1 10 [] _ _) _).
  - intros j Hj. destruct j; [|lia]. eexists _, _. split; reflexivity.
  - eexists _, _, _. split; [reflexivity|]. split; [reflexivity|]. split; discriminate.
  - lia.
Defined.

Lemma clone_succeeds_witness :
  fst (cloneImageToRegion (Examples.healthy "ami-2") Examples.one_region 10
         (Examples.image "ami-1" (Some "available")) None "us-east-1" "eu-west-1" [])
  = Some (Ok "ami-2").
Proof.
  rewrite (clone_succeeds (Examples.healthy "ami-2") Examples.one_region 10
             (Examples.image "ami-1" (Some "available")) None "us-east-1" "eu-west-1"
             "ami-2" 1).
  - reflexivity.
  - reflexivity.
  - intros j Hj. destruct j; [|lia]. eexists _, _. split; reflexivity.
  - eexists _, _, _. split; [reflexivity|]. split; [reflexivity|]. split; discriminate.
  - reflexivity.
  - reflexivity.
  - lia.
Defined.

End ProgressFacts.

(** ** The order in which workers report *)

Module OrderFacts.
Import Spec Attempts Invariant ImageCloner ReportFacts.

Section Report.
Variable regions : list string.
Variable outcomes : list (option (Result string)).
Hypothesis distinct : NoDup regions.

Lemma entry_of_reported s i region r :
  consistent regions outcomes s ->
  regions !! i = Some region -> i ∈ finished s -> outcomes !! i = Some (Some r) ->
  results s !! region = Some (outcome_of r).
Proof.
  intros [K F LF FL LC EE EI] Hreg Hi Hout.
  assert (Hkey : is_Some (results s !! region)).
  { apply elem_of_dom. rewrite K. apply elem_of_list_to_set.
    by eapply list_elem_of_lookup_2. }
  destruct Hkey as [o Ho]. rewrite Ho. f_equal.
  assert (Hsame : forall j r', ran regions outcomes (finished s) j region r' -> r' = r).
  { intros j r' (_ & Hj & Hoj).
    assert (j = i) as -> by (eapply NoDup_lookup; eauto). congruence. }
  destruct (EE _ _ Ho) as [[_ Hno]|(j & r' & Hran & He)]; [by destruct (Hno i Hi)|].
  rewrite (Hsame _ _ Hran) in He.
  destruct (EI _ _ Ho) as [(Him & Hs & Hno)|(j' & id & Hran' & Him & Hs)].
  - destruct r as [e|id].
    + destruct o; cbn in *; subst; reflexivity.
    + destruct (Hno i id). split; [done|]. split; done.
  - pose proof (Hsame _ _ Hran') as <-.
    destruct o; cbn in *; subst; reflexivity.
Qed.

Lemma entry_of_silent s i region :
  consistent regions outcomes s ->
  regions !! i = Some region -> i ∉ finished s ->
  results s !! region = Some not_attempted.
Proof.
  intros [K F LF FL LC EE EI] Hreg Hi.
  assert (Hkey : is_Some (results s !! region)).
  { apply elem_of_dom. rewrite K. apply elem_of_list_to_set.
    by eapply list_elem_of_lookup_2. }
  destruct Hkey as [o Ho]. rewrite Ho. f_equal.
  assert (Hnone : forall j r', ~ ran regions outcomes (finished s) j region r').
  { intros j r' (Hj & Hrj & _).
    assert (j = i) as -> by (eapply NoDup_lookup; eauto). done. }
  destruct (EE _ _ Ho) as [[He _]|(j & r' & Hran & _)]; [|by destruct (Hnone j r')].
  destruct (EI _ _ Ho) as [(Him & Hs & _)|(j & id & Hran & _)];
    [|by destruct (Hnone j (Ok id))].
  destruct o; cbn in *; subst; reflexivity.
Qed.

Lemma entry_after_complete_run schedule s i region :
  consistent regions outcomes s ->
  (forall j, (j < length regions)%nat -> j ∈ schedule) ->
  regions !! i = Some region ->
  results (foldl (deliver regions outcomes) s schedule) !! region
  = Some (final_entry (outcomes !! i)).
Proof.
  intros Hs Hall Hreg.
  pose proof (consistent_run regions outcomes schedule s Hs) as Hs'.
  destruct (outcomes !! i) as [[r|]|] eqn:Eo; cbn [final_entry].
  - eapply entry_of_reported; eauto.
    eapply finished_after_run; eauto. apply Hall. by eapply lookup_lt_Some.
  - eapply entry_of_silent; eauto. intros Hi.
    destruct (finished_ran _ _ _ Hs' i Hi) as (? & ? & _ & ?). congruence.
  - eapply entry_of_silent; eauto. intros Hi.
    destruct (finished_ran _ _ _ Hs' i Hi) as (? & ? & _ & ?). congruence.
Qed.

End Report.

(** X17. With pairwise distinct destination regions the report does not
    depend on the order in which the workers report: any two schedules in
    which every worker occurs leave the same report, and in it every
    region holds the outcome of its own worker (the placeholder if that
    worker never came to an end). *)
Theorem report_independent_of_order env cfg schedule schedule' :
  NoDup (destinationRegions cfg) ->
  (forall i, (i < length (destinationRegions cfg))%nat -> i ∈ schedule) ->
  (forall i, (i < length (destinationRegions cfg))%nat -> i ∈ schedule') ->
  report (cloneImage_with env cfg schedule) = report (cloneImage_with env cfg schedule')
  /\ forall i region,
       destinationRegions cfg !! i = Some region ->
       worker_runs (cloneImage_with env cfg schedule) <> [] ->
       report (cloneImage_with env cfg schedule) !! region
       = Some (final_entry
                 ((fst <$> worker_runs (cloneImage_with env cfg schedule)) !! i)).
Proof.
  intros Hnd Hall Hall'. unfold cloneImage_with.
  destruct (ConfigValidator.validate cfg) as [|v vs]; [|split; [done|by intros]].
  destruct (Ec2.describeImage _ _ _ _) as [[e|image] t1]; [split; [done|by intros]|].
  destruct (Ec2.describeImageAttribute _ _ _ _ _) as [[e|perms] t2];
    [split; [done|by intros]|].
  unfold cloneImageToRegions. cbn [report worker_runs].
  set (regions := destinationRegions cfg) in *.
  set (runs := imap _ regions).
  set (s1 := if Nat.eqb (length regions) 0 then _ else _).
  assert (Hs1 : consistent regions (fst <$> runs) s1).
  { subst s1. destruct (Nat.eqb (length regions) 0).
    - eapply consistent_callbacks_only; [|apply asyncCallback_callbacks_only].
      apply consistent_start.
    - apply consistent_start. }
  split.
  - apply map_eq. intros region.
    destruct (decide (region ∈ regions)) as [Hin|Hnin].
    + apply list_elem_of_lookup_1 in Hin as [i Hi].
      by rewrite !(entry_after_complete_run regions (fst <$> runs) Hnd _ s1 i region).
    + pose proof (keys_fixed _ _ _
                    (consistent_run regions (fst <$> runs) schedule s1 Hs1)) as K.
      pose proof (keys_fixed _ _ _
                    (consistent_run regions (fst <$> runs) schedule' s1 Hs1)) as K'.
      assert (Hout : forall (m : gmap string RegionOutcome),
                 dom m = list_to_set regions -> m !! region = None).
      { intros m Hm. apply not_elem_of_dom. rewrite Hm. set_solver. }
      by rewrite !Hout.
  - intros i region Hi _.
    by rewrite (entry_after_complete_run regions (fst <$> runs) Hnd _ s1 i region).
Qed.

Lemma report_independent_of_order_witness :
  report (cloneImage_with Examples.first_fails Examples.two_regions [0; 1]%nat)
  = report (cloneImage_with Examples.first_fails Examples.two_regions [1; 0]%nat).
Proof.
  apply (report_independent_of_order Examples.first_fails Examples.two_regions
           [0; 1]%nat [1; 0]%nat).
  - cbn. repeat constructor; set_solver.
  - intros i Hi. cbn in Hi. destruct i as [|[|i]]; [set_solver|set_solver|lia].
  - intros i Hi. cbn in Hi. destruct i as [|[|i]]; [set_solver|set_solver|lia].
Defined.

End OrderFacts.

(** ** What the fan-out starts *)

Module FanoutFacts.
Import Spec Attempts ImageCloner.

(** The first thing a worker does is to ask for the copy. *)
Lemma worker_starts_with_copy R cfg ticks image perms sourceRegion destinationRegion :
  exists r tr,
    cloneImageToRegion R cfg ticks image perms sourceRegion destinationRegion []
    = (r, EvCopyImage destinationRegion
            {| cp_Name := Name image; cp_SourceImageId := ImageId image;
               cp_SourceRegion := sourceRegion; cp_Description := Description image |}
          :: tr).
Proof.
  destruct (RetryFacts.retry_from_attempts is_copyImage
              (EvCopyImage destinationRegion
                 {| cp_Name := Name image; cp_SourceImageId := ImageId image;
                    cp_SourceRegion := sourceRegion;
                    cp_Description := Description image |})
              (fun i => match on_copyImage R i with
                        | Ok newImageId => Ok newImageId
                        | Err e => Err (CallFailed "copyImage" e)
                        end)
              (r <~ Ec2.client_copyImage R destinationRegion
                      {| cp_Name := Name image; cp_SourceImageId := ImageId image;
                         cp_SourceRegion := sourceRegion;
                         cp_Description := Description image |} ;;
               match r with
               | Err error => ret (Err (CallFailed "copyImage" error))
               | Ok newImageId => ret (Ok newImageId)
               end)
              100 2 eq_refl eq_refl) with (t := @nil Event) as (k & _ & _ & _ & E).
  { intros t'. cbv [Ec2.client_copyImage bind calls_so_far emit ret count].
    by destruct (on_copyImage R _). }
  change (Ec2.retry_from 2 100 _ [])
    with (Ec2.copyImage R (ImageId image) (Name image) (Description image)
            sourceRegion destinationRegion []) in E.
  unfold cloneImageToRegion, bind. rewrite E. cbn [app].
  set (c := EvCopyImage _ _). set (w := concat _).
  destruct (match on_copyImage R _ with Ok _ => _ | Err _ => _ end) as [e|id];
    [by eexists _, _|].
  destruct (ImageClonerFacts.awaitImageCopyCompletion_extends R cfg ticks id
              destinationRegion (c :: w)) as (r2 & a & E2 & _).
  rewrite E2. destruct r2 as [[e|u]|]; [by eexists _, _| |by eexists _, _].
  destruct (Ec2Facts.tagImage_appends R image id destinationRegion ((c :: w) ++ a))
    as (r3 & g & E3 & _).
  rewrite E3. destruct r3 as [e|u3]; [by eexists _, _|].
  destruct (Ec2Facts.setLaunchPermissions_appends R perms id destinationRegion
              (((c :: w) ++ a) ++ g)) as (r4 & p & E4 & _).
  rewrite E4. destruct r4 as [e|u4]; by eexists _, _.
Qed.

(** The log only grows. *)
Lemma log_grows_step regions outcomes s i :
  exists more, log (deliver regions outcomes s i) = log s ++ more.
Proof.
  unfold deliver. destruct (existsb _ _); [exists []; by rewrite app_nil_r|].
  destruct (regions !! i) as [region|]; [|exists []; by rewrite app_nil_r].
  destruct (outcomes !! i) as [[r|]|]; try (exists []; by rewrite app_nil_r).
  destruct r as [e|id]; cbn.
  - destruct (results s !! region) eqn:Eo.
    + unfold set_error. cbn. rewrite Eo.
      unfold innerAsyncCallback, asyncCallback, note. cbn.
      destruct (Nat.eqb _ 0); [destruct (series_called s)|]; cbn;
        rewrite <- ?app_assoc; eauto.
    + unfold set_error. cbn. rewrite Eo. unfold note. cbn.
      rewrite <- app_assoc. eauto.
  - unfold asyncCallback, note, set_success. cbn.
    destruct (series_called s); cbn; rewrite <- ?app_assoc; eauto.
Qed.

Lemma log_grows regions outcomes schedule :
  forall s, exists more,
    log (foldl (deliver regions outcomes) s schedule) = log s ++ more.
Proof.
  induction schedule as [|i schedule IH]; intros s.
  - exists []. by rewrite app_nil_r.
  - cbn [foldl]. destruct (IH (deliver regions outcomes s i)) as [more ->].
    destruct (log_grows_step regions outcomes s i) as [more' ->].
    rewrite <- app_assoc. eauto.
Qed.

(** X18. When the fan-out is reached, one worker is started for every
    entry of [destinationRegions], in the order of the list and
    duplicates included (a region named twice is copied twice), before
    any worker reports; each worker begins by asking its own region for a
    copy of the image found by the source lookup, under that image's
    name and description, from the configured source region. *)
Theorem one_worker_per_entry env cfg schedule :
  let run := cloneImage_with env cfg schedule in
  worker_runs run <> [] ->
  exists image t1,
    Ec2.describeImage (source_remote env) (sourceImageId cfg) (sourceRegion cfg) []
    = (Ok image, t1)
    /\ length (worker_runs run) = length (destinationRegions cfg)
    /\ firstn (length (destinationRegions cfg)) (notices run)
       = imap WorkerStarted (destinationRegions cfg)
    /\ forall i region,
         destinationRegions cfg !! i = Some region ->
         exists r tr,
           worker_runs run !! i
           = Some (r, EvCopyImage region
                        {| cp_Name := Name image; cp_SourceImageId := ImageId image;
                           cp_SourceRegion := sourceRegion cfg;
                           cp_Description := Description image |} :: tr).
Proof.
  intros run Hruns. subst run. revert Hruns. unfold cloneImage_with.
  destruct (ConfigValidator.validate cfg) as [|v vs]; [|done].
  destruct (Ec2.describeImage _ _ _ _) as [[e|image] t1]; [done|].
  destruct (Ec2.describeImageAttribute _ _ _ _ _) as [[e|perms] t2]; [done|].
  unfold cloneImageToRegions. cbn [report worker_runs notices]. intros Hruns.
  exists image, t1. split; [done|]. split; [by rewrite length_imap|]. split.
  - assert (Hn : Nat.eqb (length (destinationRegions cfg)) 0 = false).
    { apply Nat.eqb_neq. intros Hz. apply Hruns. apply length_zero_iff_nil.
      by rewrite length_imap. }
    rewrite Hn.
    destruct (log_grows (destinationRegions cfg) (fst <$> imap (fun i region =>
                 cloneImageToRegion (worker_remote env i) cfg (poll_fuel env) image perms
                   (sourceRegion cfg) region []) (destinationRegions cfg)) schedule
                {| results := initial_results (destinationRegions cfg);
                   firstCloneImageError := None;
                   each_outstanding := length (destinationRegions cfg);
                   series_called := false;
                   finished := [];
                   log := imap WorkerStarted (destinationRegions cfg) |}) as [more ->].
    cbn [log]. rewrite <- (length_imap WorkerStarted (destinationRegions cfg)) at 1.
    by rewrite take_app_length.
  - intros i region Hi. rewrite list_lookup_imap, Hi. cbn.
    destruct (worker_starts_with_copy (worker_remote env i) cfg (poll_fuel env)
                image perms (sourceRegion cfg) region) as (r & tr & ->).
    eauto.
Qed.

Lemma one_worker_per_entry_witness :
  exists image t1,
    Ec2.describeImage (source_remote Examples.all_succeed)
      (sourceImageId Examples.same_region_twice)
      (sourceRegion Examples.same_region_twice) [] = (Ok image, t1)
    /\ length (worker_runs (cloneImage_with Examples.all_succeed
                              Examples.same_region_twice []))
       = length (destinationRegions Examples.same_region_twice)
    /\ firstn (length (destinationRegions Examples.same_region_twice))
         (notices (cloneImage_with Examples.all_succeed Examples.same_region_twice []))
       = imap WorkerStarted (destinationRegions Examples.same_region_twice)
    /\ forall i region,
         destinationRegions Examples.same_region_twice !! i = Some region ->
         exists r tr,
           worker_runs (cloneImage_with Examples.all_succeed
                          Examples.same_region_twice []) !! i
           = Some (r, EvCopyImage region
                        {| cp_Name := Name image; cp_SourceImageId := ImageId image;
                           cp_SourceRegion := sourceRegion Examples.same_region_twice;
                           cp_Description := Description image |} :: tr).
Proof.
  apply (one_worker_per_entry Examples.all_succeed Examples.same_region_twice []).
  vm_compute. discriminate.
Defined.

End FanoutFacts.

(** ** The per-region pipeline *)

Module PipelineFacts.
Import Spec Attempts Pipeline ImageCloner.

Lemma count_repeats p call k :
  p retry_wait = false ->
  count p (concat (replicate k [retry_wait; call]))
  = (if p call then k else 0)%nat.
Proof.
  intros Hw. induction k as [|k IH]; [by destruct (p call)|].
  cbn [replicate concat]. rewrite RetryFacts.count_app, IH.
  unfold count. cbn. rewrite Hw. by destruct (p call).
Qed.

Lemma count_tries p call k :
  p call = true -> p retry_wait = false -> count p (tries call k) = S k.
Proof.
  intros Hc Hw. unfold tries.
  change (call :: ?l) with ([call] ++ l). rewrite RetryFacts.count_app, count_repeats by done.
  unfold count. cbn. by rewrite Hc.
Qed.

Lemma count_tries_other p call k :
  p call = false -> p retry_wait = false -> count p (tries call k) = 0%nat.
Proof.
  intros Hc Hw. unfold tries.
  change (call :: ?l) with ([call] ++ l). rewrite RetryFacts.count_app, count_repeats by done.
  unfold count. cbn. by rewrite Hc.
Qed.

(** What [retry_from_attempts] finds is an attempt. *)
Lemma retried {A} (answers : nat -> Result A) off k :
  (k <= 2)%nat -> refused answers off k ->
  (exists a, answers (off + k)%nat = Ok a) \/ k = 2%nat ->
  attempt answers off k (answers (off + k)%nat).
Proof.
  intros Hk Hbefore Hend. destruct (answers (off + k)%nat) as [e|a] eqn:E.
  - destruct Hend as [[a Ha]| ->]; [done|]. by constructor.
  - constructor; [lia|done..].
Qed.

Lemma attempt_unique {A} (answers : nat -> Result A) off k k' r r' :
  attempt answers off k r -> attempt answers off k' r' -> k = k' /\ r = r'.
Proof.
  assert (Hfirst : forall i j a, (i < j)%nat ->
            answers (off + i)%nat = Ok a -> refused answers off j -> False).
  { intros i j a Hij Ha Hr. destruct (Hr i Hij) as [e He]. congruence. }
  intros [k1 a1 Hk1 Hr1 Ha1|e1 Hr1 He1] [k2 a2 Hk2 Hr2 Ha2|e2 Hr2 He2].
  - destruct (Nat.lt_trichotomy k1 k2) as [H|[->|H]].
    + destruct (Hfirst _ _ _ H Ha1 Hr2).
    + split; congruence.
    + destruct (Hfirst _ _ _ H Ha2 Hr1).
  - destruct (decide (k1 = 2%nat)) as [->|Hne]; [congruence|].
    destruct (Hfirst k1 2%nat a1); [lia|done..].
  - destruct (decide (k2 = 2%nat)) as [->|Hne]; [congruence|].
    destruct (Hfirst k2 2%nat a2); [lia|done..].
  - split; congruence.
Qed.

Lemma terminal_not_both state : terminal state -> not_terminal state -> False.
Proof.
  intros (s & -> & H1 & H2) [H|[H|H]]; congruence.
Qed.

Lemma copy_completed_terminal state :
  copy_completed state = true -> terminal state.
Proof.
  unfold copy_completed, Js.truthy_string, is_pending, terminal.
  destruct state as [s|]; [|done]. intros H. exists s. split; [done|].
  destruct (String.eqb_spec s ""); [done|].
  destruct (String.eqb_spec s "pending"); done.
Qed.

Lemma copy_completed_not_terminal state :
  copy_completed state = false -> not_terminal state.
Proof.
  unfold copy_completed, Js.truthy_string, is_pending, not_terminal.
  destruct state as [s|]; [|by left]. intros H. right.
  destruct (String.eqb_spec s ""); [left; congruence|].
  destruct (String.eqb_spec s "pending"); [right; congruence|done].
Qed.

(** Two attempts on the same answers from the same call are the same. *)
Ltac same_attempts :=
  repeat match goal with
  | H1 : attempt ?f ?o _ _, H2 : attempt ?f ?o _ _ |- _ =>
      let Hk := fresh in
      let Hr := fresh in
      destruct (attempt_unique _ _ _ _ _ _ H1 H2) as [Hk Hr]; clear H2;
      try discriminate Hr; simplify_eq
  end.

Section Worker.
Variable R : Remote.
Variable cfg : Config.
Variable image : Image.
Variable launchPermissions : option (list LaunchPermission).
Variable sourceRegion destinationRegion : string.

Lemma copyImage_exact t :
  exists k r,
    attempt (on_copyImage R) (count is_copyImage t) k r
    /\ Ec2.copyImage R (ImageId image) (Name image) (Description image)
         sourceRegion destinationRegion t
       = (match r with
          | Ok id => Ok id
          | Err e => Err (CallFailed "copyImage" e)
          end,
          t ++ tries (copy_call image sourceRegion destinationRegion) k).
Proof.
  destruct (RetryFacts.retry_from_attempts is_copyImage
              (copy_call image sourceRegion destinationRegion)
              (fun i => match on_copyImage R i with
                        | Ok newImageId => Ok newImageId
                        | Err e => Err (CallFailed "copyImage" e)
                        end)
              (r <~ Ec2.client_copyImage R destinationRegion
                      {| cp_Name := Name image; cp_SourceImageId := ImageId image;
                         cp_SourceRegion := sourceRegion;
                         cp_Description := Description image |} ;;
               match r with
               | Err error => ret (Err (CallFailed "copyImage" error))
               | Ok newImageId => ret (Ok newImageId)
               end)
              100 2 eq_refl eq_refl) with (t := t) as (k & Hk & Hbefore & Hend & E).
  { intros t'. cbv [Ec2.client_copyImage bind calls_so_far emit ret count copy_call].
    by destruct (on_copyImage R _). }
  exists k, (on_copyImage R (count is_copyImage t + k)). split; [|exact E].
  apply retried; [done| |].
  - intros j Hj. destruct (Hbefore j Hj) as [e He].
    destruct (on_copyImage R (count is_copyImage t + j)) as [e'|]; [eauto|done].
  - destruct Hend as [[a Ha]|Hend]; [|by right].
    left. destruct (on_copyImage R (count is_copyImage t + k)); [done|eauto].
Qed.

Lemma describeImage_exact imageId t :
  exists k r,
    attempt (on_describeImages R) (count is_describeImages t) k r
    /\ Ec2.describeImage R imageId destinationRegion t
       = (match r with
          | Err e => Err (CallFailed "describeImages" e)
          | Ok [] => Err (NoImageFound imageId)
          | Ok (found :: _) => Ok found
          end,
          t ++ tries (describe_call destinationRegion imageId) k).
Proof.
  destruct (RetryFacts.retry_from_attempts is_describeImages
              (describe_call destinationRegion imageId)
              (on_describeImages R)
              (Ec2.client_describeImages R destinationRegion [imageId])
              100 2 eq_refl eq_refl) with (t := t) as (k & Hk & Hbefore & Hend & E).
  { intros t'. reflexivity. }
  exists k, (on_describeImages R (count is_describeImages t + k)).
  split; [by apply retried|].
  unfold Ec2.describeImage, bind. unfold Ec2.retry. cbn [Ec2.times Ec2.interval
    Ec2.retryConfig Nat.pred]. rewrite E.
  by destruct (on_describeImages R _) as [e|[|found images]].
Qed.

Lemma tagImage_exact imageId t :
  exists k r,
    attempt (on_createTags R) (count is_createTags t) k r
    /\ Ec2.tagImage R imageId destinationRegion (Tags image) t
       = (match r with
          | Err e => Err (CallFailed "createTags" e)
          | Ok _ => Ok tt
          end,
          t ++ tries (tag_call image destinationRegion imageId) k).
Proof.
  destruct (RetryFacts.retry_from_attempts is_createTags
              (tag_call image destinationRegion imageId)
              (fun i => match on_createTags R i with
                        | Err e => Err (CallFailed "createTags" e)
                        | Ok _ => Ok tt
                        end)
              (r <~ Ec2.client_createTags R destinationRegion [imageId] (Tags image) ;;
               match r with
               | Err error => ret (Err (CallFailed "createTags" error))
               | Ok _ => ret (Ok tt)
               end)
              100 2 eq_refl eq_refl) with (t := t) as (k & Hk & Hbefore & Hend & E).
  { intros t'. cbv [Ec2.client_createTags bind calls_so_far emit ret count tag_call].
    by destruct (on_createTags R _). }
  exists k, (on_createTags R (count is_createTags t + k)). split; [|exact E].
  apply retried; [done| |].
  - intros j Hj. destruct (Hbefore j Hj) as [e He].
    destruct (on_createTags R (count is_createTags t + j)) as [e'|]; [eauto|done].
  - destruct Hend as [[a Ha]|Hend]; [|by right].
    left. destruct (on_createTags R (count is_createTags t + k)); [done|eauto].
Qed.

Lemma setLaunchPermissions_exact imageId t :
  exists k r,
    attempt (on_modifyImageAttribute R) (count is_modifyImageAttribute t) k r
    /\ Ec2.modifyImageAttribute R imageId destinationRegion Constants.LAUNCH_PERMISSION
         {| Add := launchPermissions; Remove := None |} t
       = (match r with
          | Err e => Err (CallFailed "modifyImageAttribute" e)
          | Ok _ => Ok tt
          end,
          t ++ tries (permission_call launchPermissions destinationRegion imageId) k).
Proof.
  destruct (RetryFacts.retry_from_attempts is_modifyImageAttribute
              (permission_call launchPermissions destinationRegion imageId)
              (on_modifyImageAttribute R)
              (Ec2.client_modifyImageAttribute R destinationRegion
                 {| mp_Attribute := "launchPermission"; mp_ImageId := imageId;
                    mp_property := Js.VString "LaunchPermission";
                    mp_value := {| Add := launchPermissions; Remove := None |} |})
              100 2 eq_refl eq_refl) with (t := t) as (k & Hk & Hbefore & Hend & E).
  { intros t'. reflexivity. }
  exists k, (on_modifyImageAttribute R (count is_modifyImageAttribute t + k)).
  split; [by apply retried|].
  unfold Ec2.modifyImageAttribute, Constants.LAUNCH_PERMISSION.
  cbn -[Ec2.retry]. unfold bind, Ec2.retry.
  cbn [Ec2.times Ec2.interval Ec2.retryConfig Nat.pred]. rewrite E.
  by destruct (on_modifyImageAttribute R _) as [e|[]].
Qed.

(** The wait, from any trace. *)
Lemma awaitImageCopyCompletion_polled imageId ticks :
  forall t, exists r a,
    awaitImageCopyCompletion R cfg ticks imageId destinationRegion t = (r, t ++ a)
    /\ polled R cfg destinationRegion imageId (count is_describeImages t) ticks r a.
Proof.
  induction ticks as [|ticks IH]; intros t.
  - exists None, []. rewrite app_nil_r. split; [done|constructor].
  - rewrite ImageClonerFacts.poll_unfold.
    destruct (describeImage_exact imageId (t ++ [poll_timeout cfg])) as (k & r & Hatt & E).
    rewrite E, (ProgressFacts.count_after_timeout cfg) in *. clear E.
    rewrite <- app_assoc. cbn [app].
    destruct r as [e|[|found rest]].
    + eexists _, _. split; [done|]. by constructor.
    + eexists _, _. split; [done|]. by constructor.
    + destruct (copy_completed (State found)) eqn:Ec.
      * eexists _, _. split; [done|]. econstructor; [done|].
        by apply copy_completed_terminal.
      * destruct (IH (t ++ poll_timeout cfg :: tries (describe_call destinationRegion imageId) k))
          as (r & a & E & Hp).
        exists r, (poll_timeout cfg :: tries (describe_call destinationRegion imageId) k ++ a).
        split; [rewrite E; by rewrite <- app_assoc|].
        eapply polled_again; [done|by apply copy_completed_not_terminal|].
        change (poll_timeout cfg :: ?l) with ([poll_timeout cfg] ++ l) in Hp.
        rewrite !RetryFacts.count_app, count_tries in Hp by done.
        unfold count at 2 in Hp. cbn in Hp.
        by replace (count is_describeImages t + S k)%nat
          with (count is_describeImages t + (0 + S k))%nat by lia.
Qed.

Lemma polled_count p imageId off ticks r a :
  p (poll_timeout cfg) = false -> p (describe_call destinationRegion imageId) = false ->
  p retry_wait = false ->
  polled R cfg destinationRegion imageId off ticks r a -> count p a = 0%nat.
Proof.
  intros H1 H2 H3. 
  assert (Htick : forall k l, count p (poll_timeout cfg
                                 :: tries (describe_call destinationRegion imageId) k ++ l)
                        = count p l).
  { intros k l. change (poll_timeout cfg :: ?x) with ([poll_timeout cfg] ++ x).
    rewrite !RetryFacts.count_app, count_tries_other by done.
    unfold count at 1. cbn. by rewrite H1. }
  assert (Hlast : forall k, count p (poll_timeout cfg
                                 :: tries (describe_call destinationRegion imageId) k)
                        = 0%nat).
  { intros k. by rewrite <- (app_nil_r (tries _ k)), Htick. }
  induction 1 as [| | | |off ticks k found rest r a _ _ _ IH];
    rewrite ?Hlast, ?Htick; done.
Qed.

Lemma polled_unique imageId off ticks r a :
  polled R cfg destinationRegion imageId off ticks r a ->
  forall r' a', polled R cfg destinationRegion imageId off ticks r' a' ->
  r = r' /\ a = a'.
Proof.
  induction 1 as [off|off ticks k cause Ha|off ticks k Ha|off ticks k found rest Ha Hs
                  |off ticks k found rest r a Ha Hs Hp IH];
    intros r' a' H'; inversion H' as [|? ? k' cause' Ha'|? ? k' Ha'|? ? k' found' rest' Ha' Hs'
                                   |? ? k' found' rest' ? a0 Ha' Hs' Hp']; subst;
    try done;
    destruct (attempt_unique _ _ _ _ _ _ Ha Ha') as [<- Heq];
    try discriminate Heq; simplify_eq; try done;
    try (exfalso; eapply terminal_not_both; eassumption).
  destruct (IH _ _ Hp') as [<- <-]. done.
Qed.

Lemma worker_run_unique ticks r t r' t' :
  worker_run R cfg image launchPermissions sourceRegion destinationRegion ticks r t ->
  worker_run R cfg image launchPermissions sourceRegion destinationRegion ticks r' t' ->
  r = r' /\ t = t'.
Proof.
  destruct 1; inversion 1; subst; same_attempts;
    try match goal with
    | H1 : polled _ _ _ ?id ?o ?n _ _, H2 : polled _ _ _ ?id ?o ?n _ _ |- _ =>
        let Hr := fresh in
        let Ha := fresh in
        destruct (polled_unique _ _ _ _ _ H1 _ _ H2) as [Hr Ha]; clear H2;
        try discriminate Hr; simplify_eq
    end;
    same_attempts; done.
Qed.

Lemma worker_runs_so ticks :
  exists r t,
    cloneImageToRegion R cfg ticks image launchPermissions
      sourceRegion destinationRegion [] = (r, t)
    /\ worker_run R cfg image launchPermissions sourceRegion destinationRegion ticks r t.
Proof.
  unfold cloneImageToRegion, bind.
  destruct (copyImage_exact []) as (k & r1 & H1 & E1).
  rewrite E1. cbn [app]. change (count is_copyImage []) with 0%nat in H1.
  destruct r1 as [cause|id].
  { eexists _, _. split; [done|]. by constructor. }
  destruct (awaitImageCopyCompletion_polled id ticks
              (tries (copy_call image sourceRegion destinationRegion) k))
    as (r2 & a & E2 & H2).
  rewrite E2. rewrite count_tries_other in H2 by done.
  destruct r2 as [[e|[]]|]; cycle 2.
  { eexists _, _. split; [done|]. by eapply still_waiting. }
  { eexists _, _. split; [done|]. by eapply stopped_at_wait. }
  destruct (tagImage_exact id (tries (copy_call image sourceRegion destinationRegion) k ++ a))
    as (k3 & r3 & H3 & E3).
  rewrite E3.
  rewrite RetryFacts.count_app, count_tries_other,
    (polled_count is_createTags _ _ _ _ _ eq_refl eq_refl eq_refl H2) in H3 by done.
  cbn [Nat.add] in H3. rewrite <- !app_assoc.
  destruct r3 as [cause|[]].
  { eexists _, _. split; [done|]. by eapply stopped_at_tags. }
  destruct (setLaunchPermissions_exact id
              (tries (copy_call image sourceRegion destinationRegion) k ++ a
               ++ tries (tag_call image destinationRegion id) k3))
    as (k4 & r4 & H4 & E4).
  rewrite E4.
  rewrite !RetryFacts.count_app, !count_tries_other,
    (polled_count is_modifyImageAttribute _ _ _ _ _ eq_refl eq_refl eq_refl H2) in H4 by done.
  cbn [Nat.add] in H4. rewrite <- !app_assoc.
  destruct r4 as [cause|[]].
  - eexists _, _. split; [done|]. by eapply stopped_at_permissions.
  - eexists _, _. split; [done|]. by eapply completed.
Qed.

(** C6. One worker, told by the answers of the service. It asks for the
    copy, three times at most; when the copy is refused three times the
    worker ends with that error and has made no other call. When a copy
    is accepted it waits for it, tick by tick; when a query of the wait
    fails or finds no image the worker ends with that error and has made
    neither a [createTags] nor a [modifyImageAttribute] call. When the
    image is found in a terminal state, and only then, the tags of the
    source image are put on the copy; when that is refused three times
    the worker ends with that error and has made no
    [modifyImageAttribute] call. When the tags are accepted, and only
    then, the launch permissions of the source are added to the copy,
    none being removed; when that is refused three times the worker ends
    with that error, and when it is accepted the worker yields the
    identifier the accepted copy was given. The worker has no result only
    while each of the ticks it was watched for found the copy in a state
    that is not terminal. Its calls are exactly those of the steps made,
    in this order, and the answers of the service leave room for no other
    result and no other trace. *)
Theorem cloneImageToRegion_pipeline ticks :
  exists r t,
    cloneImageToRegion R cfg ticks image launchPermissions
      sourceRegion destinationRegion [] = (r, t)
    /\ worker_run R cfg image launchPermissions sourceRegion destinationRegion ticks r t
    /\ forall r' t',
         worker_run R cfg image launchPermissions sourceRegion destinationRegion
           ticks r' t' ->
         r' = r /\ t' = t.
Proof.
  destruct (worker_runs_so ticks) as (r & t & E & H).
  exists r, t. split; [exact E|]. split; [exact H|].
  intros r' t' H'. by destruct (worker_run_unique ticks r t r' t' H H') as [-> ->].
Qed.

End Worker.

End PipelineFacts.
